(** * Gadget / audio_to_text: speaker-attributed transcription

    A shallow embedding of [audio_to_text/transcribe_audio.py]: the
    size-constrained transcriber [_transcribir_wav_con_chunking_opcional],
    the Whisper dispatch [_transcribir_chunk_whisper], [diarizar_audio],
    [guardar_transcripcion], [convertir_a_wav] and the per-file body of
    [procesar_directorio].

    Conventions of the embedding.
    - A Python [str] is a list of Unicode code points.
    - A Python [float] is a binary64 value ([PrimFloat.float]).
    - Integer milliseconds and byte sizes are [Z].  The two divisions
      [math.ceil(file_size / LIMIT)] and [math.floor(total / num_chunks)] go
      through a binary64 quotient in Python; for operands below 2^52 the
      rounded quotient has the same ceiling and floor as the exact one, so
      they are written with integer division.
    - Dictionaries that the code mutates (the segment dictionaries) live in
      a heap of objects addressed by location; the others are values.
    - The outside world (decoder, file system, transcription service,
      diarization pipeline) is an [Env] of oracles.  Every [try/except] of
      the source whose [except] branch changes what the program does next
      ([continue], [return None]) is an oracle answer that selects that
      branch.  The two [except] branches that only print (around [unlink]
      and around the final write) change nothing in the flow and have no
      oracle.  A call outside any [try] is taken to succeed, except [int]
      of a non-finite float, which depends on the data alone: it raises
      and ends the run.
    - Effects are recorded, in order, in a log of events: the slices
      taken, the exports of the chunks and of the WAVs of the turns, the
      requests to the service, the calls of [unlink] and the writes of
      transcripts.  The conversion of an input to WAV, with its export
      (line 85), is the oracle [decode_ok] and leaves no event; nothing in
      the program unlinks the converted WAV.
    - A field [None] of an answer of the service is a key that the
      dictionary lacks, for which the code has its [.get] defaults.  The
      dictionary of a verbose transcription holds every key; what depends
      on it is stated, in the last part, for answers that carry every
      field. *)

From Stdlib Require Import ZArith QArith.
From Stdlib Require Import Floats.PrimFloat Floats.FloatOps Floats.SpecFloat.
From Stdlib Require Import Numbers.Cyclic.Int63.Uint63.
From Stdlib Require Import Strings.Ascii Strings.String.
From stdpp Require Import base option list list_numbers strings pretty.

Local Open Scope Z_scope.

(* ================================================================== *)
(** ** Python strings *)

Module PyStr.

(** A string is its sequence of code points. *)
Definition str := list N.

(** An ASCII literal of the source. *)
Definition lit (s : string) : str := N_of_ascii <$> list_ascii_of_string s.

(** The newline character of an f-string. *)
Definition nl : str := [10%N].

(** [str.isspace] on one character: Python's white-space code points. *)
Definition isspace (c : N) : bool :=
  (((9 <=? c) && (c <=? 13)) || ((28 <=? c) && (c <=? 32))
   || (c =? 133) || (c =? 160) || (c =? 5760)
   || ((8192 <=? c) && (c <=? 8202))
   || (c =? 8232) || (c =? 8233) || (c =? 8239) || (c =? 8287)
   || (c =? 12288))%N.

Fixpoint lstrip (s : str) : str :=
  match s with
  | [] => []
  | c :: s' => if isspace c then lstrip s' else s
  end.

Definition rstrip (s : str) : str := reverse (lstrip (reverse s)).

(** [s.strip()] *)
Definition strip (s : str) : str := lstrip (rstrip s).

(** [sep.join(parts)] *)
Fixpoint join (sep : str) (parts : list str) : str :=
  match parts with
  | [] => []
  | [p] => p
  | p :: ps => p ++ sep ++ join sep ps
  end.

(** Truth value of a string: non-empty. *)
Definition truthy (s : str) : bool :=
  match s with [] => false | _ :: _ => true end.

(** [str(n)] for an integer. *)
Definition of_int (n : Z) : str := lit (pretty n).

(** [s.encode("latin-1", errors="ignore")]: a code point below 256 is its
    own byte, any other is dropped. *)
Definition encode_latin1_ignore (s : str) : list N :=
  filter (λ c, (c < 256)%N) s.

(** [s.encode("latin-1")] with the default strict handler: fails on the
    first code point that has no byte. *)
Definition encode_latin1_strict (s : str) : option (list N) :=
  if forallb (λ c, (c <? 256)%N) s then Some s else None.

End PyStr.
Export PyStr.

(* ================================================================== *)
(** ** Python floats *)

Module PyFloat.

(** [int(x)]: truncation toward zero; [None] where Python raises
    ([ValueError] on NaN, [OverflowError] on an infinity). *)
Definition py_int (x : float) : option Z :=
  match Prim2SF x with
  | S754_zero _ => Some 0
  | S754_finite s m e =>
      let mag := Z.shiftl (Z.pos m) e in
      Some (if s then - mag else mag)
  | S754_infinity _ | S754_nan => None
  end.

(** [float(n)] for an integer of magnitude below 2^63 (exact below 2^53,
    correctly rounded above). *)
Definition of_Z (n : Z) : float :=
  if n <? 0 then PrimFloat.opp (of_uint63 (Uint63.of_Z (- n)))
  else of_uint63 (Uint63.of_Z n).

(** The exact rational value of a finite float (0 for the others). *)
Definition to_Q (x : float) : Q :=
  match Prim2SF x with
  | S754_finite s m e =>
      let v := if 0 <=? e then inject_Z (Z.pos m * 2 ^ e)
               else Qmake (Z.pos m) (Pos.pow 2 (Z.to_pos (- e))) in
      if s then Qopp v else v
  | _ => 0%Q
  end.

End PyFloat.

(* ================================================================== *)
(** ** pathlib paths *)

Module PyPath.

(** A path: the directories above, and the final component.  The final
    component of a path is not empty, as that of a directory entry never
    is (on an empty one [with_suffix] raises). *)
Record Path := mkPath { parent : list str; name : str }.

Definition dot : N := 46.

(** A component that pathlib drops when it joins: the empty one and
    ["."]. *)
Definition dropped_component (s : str) : bool :=
  match s with
  | [] => true
  | [c] => (c =? dot)%N
  | _ :: _ :: _ => false
  end.

(** [p / s] for one component [s]: [p / "."] and [p / ""] are [p]. *)
Definition join_path (p : Path) (s : str) : Path :=
  if dropped_component s then p
  else {| parent := parent p ++ [name p]; name := s |}.

(** [s.rfind(c)] *)
Fixpoint rfind (c : N) (s : str) : option nat :=
  match s with
  | [] => None
  | x :: s' =>
      match rfind c s' with
      | Some i => Some (S i)
      | None => if (x =? c)%N then Some 0%nat else None
      end
  end.

(** The index at which the suffix of a name starts, if it has one:
    [i = name.rfind('.')] with [0 < i < len(name) - 1]. *)
Definition suffix_index (nm : str) : option nat :=
  match rfind dot nm with
  | Some i =>
      if ((0 <? i) && (i <? length nm - 1))%nat then Some i else None
  | None => None
  end.

(** [PurePath.suffix] *)
Definition suffix_of (nm : str) : str :=
  match suffix_index nm with Some i => drop i nm | None => [] end.

(** [PurePath.stem] *)
Definition stem_of (nm : str) : str :=
  match suffix_index nm with Some i => take i nm | None => nm end.

Definition suffix (p : Path) : str := suffix_of (name p).
Definition stem (p : Path) : str := stem_of (name p).

(** [p.with_suffix(suf)] for a well-formed [suf]: the old suffix of the
    name, if it has one, is cut off, and [suf] is put at the end. *)
Definition with_suffix (p : Path) (suf : str) : Path :=
  let nm := name p in
  let old_suffix := suffix_of nm in
  {| parent := parent p;
     name := match old_suffix with
             | [] => nm ++ suf
             | _ => take (length nm - length old_suffix) nm ++ suf
             end |}.

End PyPath.
Export PyPath.

(* ================================================================== *)
(** ** Values exchanged with the transcription service *)

(** Location of a segment dictionary in the heap. *)
Definition loc := nat.

(** One segment dictionary of a verbose transcription.  The keys ['start']
    and ['end'] may be absent (the code reads them with a default);
    [seg_text] stands for the keys that the code never touches. *)
Record Segment := mkSegment {
  seg_start : option float;
  seg_end : option float;
  seg_text : str
}.

(** What the service answers, before it is turned into dictionaries. *)
Record ApiRespuesta := mkApiRespuesta {
  api_text : option str;
  api_language : option str;
  api_segments : option (list Segment)
}.

(** A result dictionary: the one [respuesta.dict()] builds, or
    [combined_result].  A field is [None] when the key is absent; the
    segments are references to segment dictionaries.  The dictionary
    always holds the other keys of the response (task, duration, ...), so
    it is never the empty dictionary, which Python takes for false. *)
Record Resultado := mkResultado {
  r_text : option str;
  r_language : option str;
  r_segments : option (list loc)
}.

(** An [AudioSegment]: loaded from a WAV file, or a slice [a[s:e]]. *)
Inductive Audio :=
| FromWav (p : Path)
| Slice (a : Audio) (start_ms end_ms : Z).

(** One diarized turn, as [itertracks(yield_label=True)] yields it. *)
Record Turn := mkTurn {
  turn_start : float;
  turn_end : float;
  speaker : str
}.

(* ================================================================== *)
(** ** Effects *)

Inductive Event :=
| EvSlice (a : Audio) (start_ms end_ms : Z)
    (** [a[start_ms:end_ms]] is taken *)
| EvExport (a : Audio) (dest : Path) (ok : bool)
    (** [a.export(dest, format="wav")] of a chunk (line 165) or of the
        WAV of a turn (line 364); [ok] is false when it raised *)
| EvWhisper (p : Path) (res : option Resultado)
    (** [_transcribir_chunk_whisper(p)] sent [p] and returned [res] *)
| EvUnlink (p : Path)
    (** [p.unlink()] *)
| EvWrite (p : Path) (data : list N)
    (** [guardar_transcripcion] opens [p] for writing and writes the
        bytes [data] *).

Record State := mkState {
  heap : list Segment;
  log : list Event
}.

Definition st0 : State := {| heap := []; log := [] |}.

(** A computation: from a state to a result and a state; the result is
    [None] when an exception nobody catches ends the run. *)
Definition M (A : Type) : Type := State → option A * State.

Definition ret {A} (a : A) : M A := λ st, (Some a, st).

Definition bind {A B} (m : M A) (f : A → M B) : M B :=
  λ st, match m st with
        | (Some a, st') => f a st'
        | (None, st') => (None, st')
        end.

Definition raise {A} : M A := λ st, (None, st).

Declare Scope m_scope.
Delimit Scope m_scope with M.
Notation "x <- m ;; k" := (bind m (λ x, k))
  (at level 100, m at next level, right associativity) : m_scope.
Notation "m ;;; k" := (bind m (λ _, k))
  (at level 100, right associativity) : m_scope.
Local Open Scope m_scope.

Definition emit (e : Event) : M unit :=
  λ st, (Some tt, {| heap := heap st; log := log st ++ [e] |}).

(** A new object. *)
Definition alloc (s : Segment) : M loc :=
  λ st, (Some (length (heap st)), {| heap := heap st ++ [s]; log := log st |}).

(** The object at a location (a dangling location cannot be built by the
    code; it would end the run). *)
Definition read (l : loc) : M Segment :=
  λ st, match heap st !! l with
        | Some s => (Some s, st)
        | None => (None, st)
        end.

(** In-place update of the object at a location. *)
Definition write (l : loc) (f : Segment → Segment) : M unit :=
  λ st, match heap st !! l with
        | Some s => (Some tt, {| heap := <[l := f s]> (heap st); log := log st |})
        | None => (None, st)
        end.

Fixpoint alloc_all (ss : list Segment) : M (list loc) :=
  match ss with
  | [] => ret []
  | s :: ss' => l <- alloc s ;; ls <- alloc_all ss' ;; ret (l :: ls)
  end.

(** A [for] loop that threads an accumulator. *)
Fixpoint for_each {A X} (xs : list X) (body : A → X → M A) (acc : A) : M A :=
  match xs with
  | [] => ret acc
  | x :: xs' => acc' <- body acc x ;; for_each xs' body acc'
  end.

(* ================================================================== *)
(** ** The outside world

    An oracle answers by file.  While one input file is processed every
    temporary file is written once and sent once (the names of the turns
    and of the chunks differ, see [chunk_filename_inj]), and the converted
    WAV is the same file at its two loads, so nothing is lost by that. *)

Record Env := mkEnv {
  (** [AudioSegment.from_file(p)...export(..)] of [convertir_a_wav] ran
      without an exception *)
  decode_ok : Path → bool;
  (** [p.stat().st_size] *)
  st_size : Path → Z;
  (** [len(AudioSegment.from_wav(p))] in ms, [None] when loading raised *)
  from_wav : Path → option Z;
  (** the guarded slice of a turn did not raise *)
  slice_ok : Audio → Z → Z → bool;
  (** [a.export(p, format="wav")] did not raise *)
  export_ok : Audio → Path → bool;
  (** [client.audio.transcriptions.create] on the file [p]; [None] when
      the call raised *)
  api_transcribe : Path → option ApiRespuesta;
  (** [di_pipeline]: [None] when its initialisation failed; the pipeline
      answers [None] when it raised *)
  di_pipeline : option (Path → option (list Turn));
  (** [dir.is_dir()], [dir.glob("*.*")], [p.is_file()], the temporary
      directory *)
  is_dir : Path → bool;
  glob : Path → list Path;
  is_file : Path → bool;
  tmpdir : Path
}.


(* ================================================================== *)
(** ** The program *)

(** [WHISPER_API_LIMIT_BYTES = 24 * 1024 * 1024] *)
Definition WHISPER_API_LIMIT_BYTES : Z := 24 * 1024 * 1024.

(** [convertir_a_wav]: the WAV goes to [dir_temporal / (stem + ".wav")];
    [None] on any of the three [except] branches.  Decoding and export
    (lines 83-85) are one oracle, and no event is recorded for them. *)
Definition convertir_a_wav (E : Env) (ruta_audio_original dir_temporal : Path)
  : option Path :=
  let nombre_wav := stem ruta_audio_original ++ lit ".wav" in
  let ruta_wav_salida := join_path dir_temporal nombre_wav in
  if decode_ok E ruta_audio_original then Some ruta_wav_salida else None.

(** [_transcribir_chunk_whisper]: one request to the service.  Its answer
    becomes a dictionary whose segment dictionaries are new objects. *)
Definition _transcribir_chunk_whisper (E : Env) (ruta_chunk_wav : Path)
  : M (option Resultado) :=
  match api_transcribe E ruta_chunk_wav with
  | Some respuesta =>
      segs <- match api_segments respuesta with
              | Some ss => ls <- alloc_all ss ;; ret (Some ls)
              | None => ret None
              end ;;
      let r := {| r_text := api_text respuesta;
                  r_language := api_language respuesta;
                  r_segments := segs |} in
      emit (EvWhisper ruta_chunk_wav (Some r)) ;;;
      ret (Some r)
  | None =>
      emit (EvWhisper ruta_chunk_wav None) ;;;
      ret None
  end.

(** [math.ceil(a / b)] for [b > 0]. *)
Definition ceil_div (a b : Z) : Z := - ((- a) / b).

(** Lines 136-138: one chunk unless the file is over the limit. *)
Definition num_chunks_of (file_size : Z) : Z :=
  if WHISPER_API_LIMIT_BYTES <? file_size
  then ceil_div file_size WHISPER_API_LIMIT_BYTES
  else 1.

(** Lines 140-143. *)
Definition chunk_duration_of (total_duration_ms num_chunks : Z) : Z :=
  let chunk_duration_ms := total_duration_ms / num_chunks in
  if (chunk_duration_ms =? 0) && (num_chunks =? 1) then total_duration_ms
  else chunk_duration_ms.

(** Lines 156-157: the bounds of chunk [i]. *)
Definition chunk_bounds (num_chunks chunk_duration_ms total_duration_ms i : Z)
  : Z * Z :=
  (i * chunk_duration_ms,
   if i <? num_chunks - 1 then (i + 1) * chunk_duration_ms
   else total_duration_ms).

(** [chunk_start_time_s = start_ms / 1000.0] *)
Definition chunk_start_time_s (start_ms : Z) : float :=
  PrimFloat.div (PyFloat.of_Z start_ms) 1000%float.

(** [seg.get('start', 0)] and [seg.get('end', 0)] *)
Definition get_start (s : Segment) : float := default 0%float (seg_start s).
Definition get_end (s : Segment) : float := default 0%float (seg_end s).

(** [d['start'] = v] and [d['end'] = v] *)
Definition set_start (v : float) (s : Segment) : Segment :=
  {| seg_start := Some v; seg_end := seg_end s; seg_text := seg_text s |}.
Definition set_end (v : float) (s : Segment) : Segment :=
  {| seg_start := seg_start s; seg_end := Some v; seg_text := seg_text s |}.

(** [seg.copy()]: a new dictionary with the same items. *)
Definition copy (l : loc) : M loc := s <- read l ;; alloc s.

(** Lines 177-181: the loop over the segments of one chunk. *)
Fixpoint rebase_segments (offset : float) (segments : list loc)
    (all_segments : list loc) : M (list loc) :=
  match segments with
  | [] => ret all_segments
  | seg :: rest =>
      adjusted_seg <- copy seg ;;
      s1 <- read seg ;;
      write adjusted_seg (set_start (PrimFloat.add offset (get_start s1))) ;;;
      s2 <- read seg ;;
      write adjusted_seg (set_end (PrimFloat.add offset (get_end s2))) ;;;
      rebase_segments offset rest (all_segments ++ [adjusted_seg])
  end.

(** The three accumulators of the chunk loop. *)
Record Acc := mkAcc {
  all_text : str;
  all_segments : list loc;
  last_successful_lang : str
}.

Definition acc0 : Acc :=
  {| all_text := []; all_segments := []; last_successful_lang := lit "unknown" |}.

(** The name of the temporary file of chunk [i]. *)
Definition chunk_filename (ruta_archivo_wav dir_temporal_chunks : Path) (i : Z)
  : Path :=
  join_path dir_temporal_chunks
    (stem ruta_archivo_wav ++ lit "_chunk_" ++ of_int (i + 1) ++ lit ".wav").

(** Lines 172-183: what a chunk result does to the accumulators. *)
Definition absorb_chunk (start_ms : Z) (chunk_result : option Resultado)
    (acc : Acc) : M Acc :=
  match chunk_result with
  | Some r =>
      let text := all_text acc ++ default [] (r_text r) ++ lit " " in
      let lang := default (last_successful_lang acc) (r_language r) in
      segs <- match r_segments r with
              | Some ls =>
                  rebase_segments (chunk_start_time_s start_ms) ls
                    (all_segments acc)
              | None => ret (all_segments acc)
              end ;;
      ret {| all_text := text; all_segments := segs;
             last_successful_lang := lang |}
  | None => ret acc
  end.

(** Lines 155-188: the body of the chunk loop. *)
Definition chunk_step (E : Env) (ruta_archivo_wav dir_temporal_chunks : Path)
    (num_chunks chunk_duration_ms total_duration_ms : Z)
    (acc : Acc) (i : Z) : M Acc :=
  let audio := FromWav ruta_archivo_wav in
  let '(start_ms, end_ms) :=
    chunk_bounds num_chunks chunk_duration_ms total_duration_ms i in
  if end_ms <=? start_ms then ret acc
  else
    emit (EvSlice audio start_ms end_ms) ;;;
    let chunk_audio := Slice audio start_ms end_ms in
    let file := chunk_filename ruta_archivo_wav dir_temporal_chunks i in
    if export_ok E chunk_audio file then
      emit (EvExport chunk_audio file true) ;;;
      chunk_result <- _transcribir_chunk_whisper E file ;;
      acc' <- absorb_chunk start_ms chunk_result acc ;;
      emit (EvUnlink file) ;;;
      ret acc'
    else
      emit (EvExport chunk_audio file false) ;;;
      ret acc.

(** Lines 190-198. *)
Definition combined_result (acc : Acc) : option Resultado :=
  if truthy (all_text acc)
  then Some {| r_text := Some (strip (all_text acc));
               r_segments := Some (all_segments acc);
               r_language := Some (last_successful_lang acc) |}
  else None.

(** [_transcribir_wav_con_chunking_opcional] *)
Definition _transcribir_wav_con_chunking_opcional (E : Env)
    (ruta_archivo_wav dir_temporal_chunks : Path) (forzar_chunking : bool)
  : M (option Resultado) :=
  let file_size := st_size E ruta_archivo_wav in
  if negb forzar_chunking && (file_size <=? WHISPER_API_LIMIT_BYTES) then
    _transcribir_chunk_whisper E ruta_archivo_wav
  else
    match from_wav E ruta_archivo_wav with
    | None => ret None
    | Some total_duration_ms =>
        let num_chunks := num_chunks_of file_size in
        let chunk_duration_ms :=
          chunk_duration_of total_duration_ms num_chunks in
        if chunk_duration_ms <=? 0 then ret None
        else
          acc <- for_each (seqZ 0 num_chunks)
                   (chunk_step E ruta_archivo_wav dir_temporal_chunks
                      num_chunks chunk_duration_ms total_duration_ms)
                   acc0 ;;
          ret (combined_result acc)
    end.

(** [diarizar_audio] *)
Definition diarizar_audio (E : Env) (ruta_archivo_wav : Path)
  : option (list Turn) :=
  match di_pipeline E with
  | None => None
  | Some pipeline => pipeline ruta_archivo_wav
  end.

(** [guardar_transcripcion]: the text goes to [base.with_suffix(...)],
    encoded as latin-1 with [errors="ignore"] (text mode on POSIX: the
    newline is written as it is).  An error while opening or writing is
    caught and printed, nothing more. *)
Definition guardar_transcripcion (E : Env) (texto_diarizado : str)
    (ruta_salida_base : Path) : M unit :=
  let ruta_salida := with_suffix ruta_salida_base (lit ".diarized.txt") in
  emit (EvWrite ruta_salida (encode_latin1_ignore texto_diarizado)).

(** [resultado and resultado.get("text")] *)
Definition has_text (resultado : option Resultado) : option str :=
  match resultado with
  | Some r =>
      match r_text r with
      | Some t => if truthy t then Some t else None
      | None => None
      end
  | None => None
  end.

(** The error line of the whole-file path:
    ["SPEAKER_?: [Error en transcripción completa]\n"]. *)
Definition error_placeholder : str :=
  lit "SPEAKER_?: [Error en transcripci" ++ [243%N] ++ lit "n completa]" ++ nl.

(** Lines 325-334: no diarization, the whole file with forced chunking. *)
Definition transcribir_sin_hablantes (E : Env) (dir_temporal_base ruta_wav : Path)
  : M str :=
  let dir_temporal_chunks_full := join_path dir_temporal_base (lit "chunks_full") in
  resultado_completo <-
    _transcribir_wav_con_chunking_opcional E ruta_wav dir_temporal_chunks_full true ;;
  match has_text resultado_completo with
  | Some text => ret (lit "SPEAKER_?: " ++ text ++ nl)
  | None => ret error_placeholder
  end.

(** [start_ms, end_ms = int(start_s * 1000), int(end_s * 1000)] *)
Definition turn_ms (t : Turn) : option (Z * Z) :=
  match PyFloat.py_int (PrimFloat.mul (turn_start t) 1000%float),
        PyFloat.py_int (PrimFloat.mul (turn_end t) 1000%float) with
  | Some start_ms, Some end_ms => Some (start_ms, end_ms)
  | _, _ => None
  end.

(** Lines 342-388: the body of the loop over the turns; [i] counts from 0
    and [texto] is [texto_diarizado_final]. *)
Definition procesar_turno (E : Env) (dir_temporal_base ruta_wav : Path)
    (texto : str) (it : Z * Turn) : M str :=
  let '(i, t) := it in
  let audio_completo := FromWav ruta_wav in
  let dir_temporal_turnos := join_path dir_temporal_base (lit "turn_chunks") in
  match turn_ms t with
  | None => raise
  | Some (start_ms, end_ms) =>
      let duracion_ms := end_ms - start_ms in
      if duracion_ms <? 100 then ret texto
      else
        emit (EvSlice audio_completo start_ms end_ms) ;;;
        if negb (slice_ok E audio_completo start_ms end_ms) then ret texto
        else
          let segmento_turno := Slice audio_completo start_ms end_ms in
          let ruta_turno_wav :=
            join_path dir_temporal_turnos
              (stem ruta_wav ++ lit "_turn_" ++ of_int (i + 1) ++ lit ".wav") in
          if negb (export_ok E segmento_turno ruta_turno_wav) then
            emit (EvExport segmento_turno ruta_turno_wav false) ;;;
            ret texto
          else
            emit (EvExport segmento_turno ruta_turno_wav true) ;;;
            let dir_temporal_chunks_turno :=
              join_path dir_temporal_base (lit "turn_subchunks") in
            resultado_transcripcion <-
              _transcribir_wav_con_chunking_opcional E ruta_turno_wav
                dir_temporal_chunks_turno false ;;
            let texto' :=
              match has_text resultado_transcripcion with
              | Some texto_transcrito =>
                  texto ++ (speaker t ++ lit ": " ++ texto_transcrito ++ nl)
              | None => texto
              end in
            emit (EvUnlink ruta_turno_wav) ;;;
            ret texto'
  end.

(** [enumerate(xs)] *)
Definition enumerate {X} (xs : list X) : list (Z * X) :=
  zip (seqZ 0 (Z.of_nat (length xs))) xs.

(** Lines 302-394: what the loop of [procesar_directorio] does with one
    file that passed [is_file]. *)
Definition procesar_archivo (E : Env) (dir_salida dir_temporal_base ruta_audio : Path)
  : M unit :=
  let nombre_base_salida := join_path dir_salida (stem ruta_audio) in
  let dir_temporal_wav := join_path dir_temporal_base (lit "wav") in
  match convertir_a_wav E ruta_audio dir_temporal_wav with
  | None => ret tt
  | Some ruta_wav =>
      match from_wav E ruta_wav with
      | None => ret tt
      | Some _ =>
          texto_diarizado_final <-
            match diarizar_audio E ruta_wav with
            | None => transcribir_sin_hablantes E dir_temporal_base ruta_wav
            | Some turnos =>
                for_each (enumerate turnos)
                  (procesar_turno E dir_temporal_base ruta_wav) []
            end ;;
          if truthy texto_diarizado_final
          then guardar_transcripcion E texto_diarizado_final nombre_base_salida
          else ret tt
      end
  end.

(** [procesar_directorio] *)
Definition procesar_directorio (E : Env) (dir_entrada dir_salida : Path) : M unit :=
  if negb (is_dir E dir_entrada) then ret tt
  else
    for_each (glob E dir_entrada)
      (λ _ ruta_audio,
         if is_file E ruta_audio
         then procesar_archivo E dir_salida (tmpdir E) ruta_audio
         else ret tt)
      tt.


(* ================================================================== *)
(** * Closed forms of the effectful code

    Each piece of the transcriber is given by what it returns, which
    objects it adds to the heap and which events it adds to the log.  The
    theorems further down are read off these equations. *)

(** One [emit e ;;; k] at the head of a computation applied to a state. *)
Ltac emit_step := unfold bind at 1, emit at 1; cbn [heap log].
Tactic Notation "emit_step" "in" hyp(H) :=
  unfold bind at 1, emit at 1 in H; cbn [heap log] in H.

Section ClosedForms.

Context (E : Env).

Lemma alloc_all_run (ss : list Segment) (h : list Segment) (lg : list Event) :
  alloc_all ss (mkState h lg)
  = (Some (seq (length h) (length ss)), mkState (h ++ ss) lg).
Proof.
  revert h. induction ss as [|s ss IH]; intros h; simpl.
  - unfold ret. by rewrite app_nil_r.
  - unfold bind, alloc; cbn [heap log]. rewrite IH. unfold ret.
    rewrite length_app, Nat.add_1_r, <- app_assoc. reflexivity.
Qed.

(** A segment after the two assignments of the loop body. *)
Definition rebased (offset : float) (s : Segment) : Segment :=
  set_end (PrimFloat.add offset (get_end s))
    (set_start (PrimFloat.add offset (get_start s)) s).

Lemma rebase_segments_run (offset : float) (ls : list loc) (ss : list Segment) :
  ∀ (all : list loc) (h : list Segment) (lg : list Event),
    Forall2 (λ l s, h !! l = Some s) ls ss →
    rebase_segments offset ls all (mkState h lg)
    = (Some (all ++ seq (length h) (length ls)),
       mkState (h ++ (rebased offset <$> ss)) lg).
Proof.
  revert ss. induction ls as [|l ls IH]; intros ss all h lg HF.
  - apply Forall2_nil_inv_l in HF as ->. simpl. unfold ret.
    by rewrite !app_nil_r.
  - apply Forall2_cons_inv_l in HF as (s & ss' & Hl & HF & ->).
    assert (Hlt : (l < length h)%nat) by (by eapply lookup_lt_Some).
    assert (Hl' : (h ++ [s]) !! l = Some s) by (by apply lookup_app_l_Some).
    cbn [rebase_segments]. unfold bind at 1. unfold copy, bind at 1, read at 1.
    cbn [heap log]. rewrite Hl. unfold alloc; cbn [heap log].
    unfold bind at 1, read at 1; cbn [heap log]. rewrite Hl'.
    unfold bind at 1, write at 1; cbn [heap log].
    rewrite lookup_app_r, Nat.sub_diag by lia. cbn [lookup list_lookup].
    rewrite insert_app_r_alt, Nat.sub_diag by lia. cbn [insert list_insert].
    unfold bind at 1, read at 1; cbn [heap log].
    rewrite lookup_app_l_Some with (x := s) by done.
    unfold bind at 1, write at 1; cbn [heap log].
    rewrite lookup_app_r, Nat.sub_diag by lia. cbn [lookup list_lookup].
    rewrite insert_app_r_alt, Nat.sub_diag by lia. cbn [insert list_insert].
    rewrite (IH ss').
    + rewrite length_app, Nat.add_1_r, <- !app_assoc. reflexivity.
    + eapply Forall2_impl; [exact HF|]. intros l' s' Hs'.
      by apply lookup_app_l_Some.
Qed.

(** The dictionary that a request on [p] returns when the heap holds [h]
    objects, and the objects it creates. *)
Definition whisper_result (p : Path) (h : nat) : option Resultado :=
  match api_transcribe E p with
  | Some respuesta =>
      Some {| r_text := api_text respuesta;
              r_language := api_language respuesta;
              r_segments :=
                (λ ss : list Segment, seq h (length ss)) <$> api_segments respuesta |}
  | None => None
  end.

Definition whisper_objects (p : Path) : list Segment :=
  match api_transcribe E p with
  | Some respuesta => default [] (api_segments respuesta)
  | None => []
  end.

Lemma whisper_run (p : Path) (h : list Segment) (lg : list Event) :
  _transcribir_chunk_whisper E p (mkState h lg)
  = (Some (whisper_result p (length h)),
     mkState (h ++ whisper_objects p)
       (lg ++ [EvWhisper p (whisper_result p (length h))])).
Proof.
  unfold _transcribir_chunk_whisper, whisper_result, whisper_objects.
  destruct (api_transcribe E p) as [respuesta|].
  - destruct (api_segments respuesta) as [ss|]; simpl.
    + unfold bind at 1. unfold bind at 1. rewrite alloc_all_run. reflexivity.
    + unfold bind, ret, emit; simpl. by rewrite app_nil_r.
  - unfold bind, ret, emit; simpl. by rewrite app_nil_r.
Qed.

(** The accumulators after a chunk result, when the copies of its
    segments start at location [h]. *)
Definition absorbed (res : option Resultado) (h : nat) (acc : Acc) : Acc :=
  match res with
  | Some r =>
      {| all_text := all_text acc ++ default [] (r_text r) ++ lit " ";
         all_segments :=
           all_segments acc
           ++ match r_segments r with
              | Some ls => seq h (length ls)
              | None => []
              end;
         last_successful_lang :=
           default (last_successful_lang acc) (r_language r) |}
  | None => acc
  end.

Lemma absorb_run (p : Path) (start_ms : Z) (acc : Acc)
    (h : list Segment) (lg : list Event) :
  let objs := whisper_objects p in
  absorb_chunk start_ms (whisper_result p (length h)) acc
    (mkState (h ++ objs) lg)
  = (Some (absorbed (whisper_result p (length h)) (length (h ++ objs)) acc),
     mkState (h ++ objs ++ (rebased (chunk_start_time_s start_ms) <$> objs)) lg).
Proof.
  unfold whisper_result, whisper_objects, absorb_chunk, absorbed.
  destruct (api_transcribe E p) as [respuesta|]; simpl.
  - destruct (api_segments respuesta) as [ss|]; simpl.
    + unfold bind.
      rewrite (rebase_segments_run _ _ ss).
      * rewrite length_seq, <- app_assoc. reflexivity.
      * apply Forall2_same_length_lookup_2; [by rewrite length_seq|].
        intros i l s Hi Hs. apply lookup_seq in Hi as [-> Hlen].
        by rewrite lookup_app_r, Nat.add_comm, Nat.add_sub by lia.
    + unfold bind, ret. by rewrite !app_nil_r.
  - unfold ret. by rewrite !app_nil_r.
Qed.

(** What one turn of the chunk loop does when the heap holds [h] objects:
    the accumulators, the new objects, the new events. *)
Definition step_effect (ruta dir : Path) (n cd total : Z) (acc : Acc) (i : Z)
    (h : nat) : Acc * list Segment * list Event :=
  let audio := FromWav ruta in
  let '(start_ms, end_ms) := chunk_bounds n cd total i in
  if end_ms <=? start_ms then (acc, [], [])
  else
    let chunk_audio := Slice audio start_ms end_ms in
    let file := chunk_filename ruta dir i in
    if export_ok E chunk_audio file then
      let res := whisper_result file h in
      let objs := whisper_objects file in
      (absorbed res (h + length objs) acc,
       objs ++ (rebased (chunk_start_time_s start_ms) <$> objs),
       [EvSlice audio start_ms end_ms; EvExport chunk_audio file true;
        EvWhisper file res; EvUnlink file])
    else
      (acc, [],
       [EvSlice audio start_ms end_ms; EvExport chunk_audio file false]).

Lemma step_run (ruta dir : Path) (n cd total : Z) (acc : Acc) (i : Z)
    (h : list Segment) (lg : list Event) :
  chunk_step E ruta dir n cd total acc i (mkState h lg)
  = let '(acc', H, L) := step_effect ruta dir n cd total acc i (length h) in
    (Some acc', mkState (h ++ H) (lg ++ L)).
Proof.
  unfold chunk_step, step_effect.
  destruct (chunk_bounds n cd total i) as [start_ms end_ms].
  destruct (end_ms <=? start_ms).
  { unfold ret. by rewrite !app_nil_r. }
  destruct (export_ok E _ _).
  - do 2 emit_step.
    unfold bind at 1. rewrite whisper_run.
    unfold bind at 1. rewrite absorb_run.
    unfold bind, emit, ret; cbn [heap log].
    rewrite length_app, <- !app_assoc. reflexivity.
  - unfold bind, emit, ret; cbn [heap log].
    rewrite app_nil_r, <- !app_assoc. reflexivity.
Qed.

(** The whole loop over the chunk indices [ixs]. *)
Fixpoint loop_effect (ruta dir : Path) (n cd total : Z) (ixs : list Z)
    (acc : Acc) (h : nat) : Acc * list Segment * list Event :=
  match ixs with
  | [] => (acc, [], [])
  | i :: ixs' =>
      let '(acc1, H1, L1) := step_effect ruta dir n cd total acc i h in
      let '(acc2, H2, L2) :=
        loop_effect ruta dir n cd total ixs' acc1 (h + length H1) in
      (acc2, H1 ++ H2, L1 ++ L2)
  end.

Lemma loop_run (ruta dir : Path) (n cd total : Z) (ixs : list Z) :
  ∀ (acc : Acc) (h : list Segment) (lg : list Event),
    for_each ixs (chunk_step E ruta dir n cd total) acc (mkState h lg)
    = let '(acc', H, L) := loop_effect ruta dir n cd total ixs acc (length h) in
      (Some acc', mkState (h ++ H) (lg ++ L)).
Proof.
  induction ixs as [|i ixs IH]; intros acc h lg; cbn [for_each loop_effect].
  - unfold ret. by rewrite !app_nil_r.
  - unfold bind. rewrite step_run.
    destruct (step_effect ruta dir n cd total acc i (length h))
      as [[acc1 H1] L1].
    rewrite IH, length_app.
    destruct (loop_effect ruta dir n cd total ixs acc1 (length h + length H1))
      as [[acc2 H2] L2].
    by rewrite !app_assoc.
Qed.

(** The transcriber takes the chunked path. *)
Definition chunked (ruta : Path) (forzar_chunking : bool) : Prop :=
  forzar_chunking = true ∨ WHISPER_API_LIMIT_BYTES < st_size E ruta.

Lemma chunked_test (ruta : Path) (forzar_chunking : bool) :
  chunked ruta forzar_chunking →
  negb forzar_chunking && (st_size E ruta <=? WHISPER_API_LIMIT_BYTES) = false.
Proof.
  intros [-> | Hlt]; [done|].
  apply andb_false_iff; right. by apply Z.leb_gt.
Qed.

(** The transcriber on the chunked path, once the WAV is loaded and the
    chunk duration is positive. *)
Lemma chunked_run (ruta dir : Path) (forzar_chunking : bool) (total : Z)
    (h : list Segment) (lg : list Event) :
  chunked ruta forzar_chunking →
  from_wav E ruta = Some total →
  let n := num_chunks_of (st_size E ruta) in
  let cd := chunk_duration_of total n in
  0 < cd →
  _transcribir_wav_con_chunking_opcional E ruta dir forzar_chunking (mkState h lg)
  = let '(acc, H, L) :=
      loop_effect ruta dir n cd total (seqZ 0 n) acc0 (length h) in
    (Some (combined_result acc), mkState (h ++ H) (lg ++ L)).
Proof.
  intros Hc Hw n cd Hcd. unfold _transcribir_wav_con_chunking_opcional.
  rewrite (chunked_test _ _ Hc), Hw. fold n. fold cd.
  destruct (Z.leb_spec cd 0) as [?|_]; [lia|].
  unfold bind. rewrite loop_run.
  by destruct (loop_effect ruta dir n cd total (seqZ 0 n) acc0 (length h))
    as [[acc H] L].
Qed.

(** The transcriber on the chunked path when it gives up before the loop:
    the WAV does not load, or the chunk duration is not positive. *)
Lemma chunked_run_none (ruta dir : Path) (forzar_chunking : bool) (st : State) :
  chunked ruta forzar_chunking →
  match from_wav E ruta with
  | None => True
  | Some total =>
      chunk_duration_of total (num_chunks_of (st_size E ruta)) <= 0
  end →
  _transcribir_wav_con_chunking_opcional E ruta dir forzar_chunking st
  = (Some None, st).
Proof.
  intros Hc Hg. unfold _transcribir_wav_con_chunking_opcional.
  rewrite (chunked_test _ _ Hc).
  destruct (from_wav E ruta) as [total|]; [|done].
  by destruct (Z.leb_spec
                 (chunk_duration_of total (num_chunks_of (st_size E ruta))) 0)
    as [_|?]; [|lia].
Qed.

(** The two ways of the chunked path. *)
Lemma chunked_run_cases (ruta dir : Path) (forzar_chunking : bool)
    (h : list Segment) (lg : list Event) :
  chunked ruta forzar_chunking →
  let n := num_chunks_of (st_size E ruta) in
  _transcribir_wav_con_chunking_opcional E ruta dir forzar_chunking (mkState h lg)
  = (Some None, mkState h lg)
  ∨ ∃ total : Z,
      from_wav E ruta = Some total ∧
      0 < chunk_duration_of total n ∧
      _transcribir_wav_con_chunking_opcional E ruta dir forzar_chunking
        (mkState h lg)
      = let '(acc, H, L) :=
          loop_effect ruta dir n (chunk_duration_of total n) total (seqZ 0 n)
            acc0 (length h) in
        (Some (combined_result acc), mkState (h ++ H) (lg ++ L)).
Proof.
  intros Hc n. destruct (from_wav E ruta) as [total|] eqn:Hw.
  - destruct (Z.lt_ge_cases 0 (chunk_duration_of total n)) as [Hcd|Hcd].
    + right. exists total. split_and!; [done..|]. by apply chunked_run.
    + left. apply chunked_run_none; [done|]. by rewrite Hw.
  - left. apply chunked_run_none; [done|]. by rewrite Hw.
Qed.

(** The transcriber on the direct path. *)
Lemma direct_run (ruta dir : Path) (h : list Segment) (lg : list Event) :
  st_size E ruta <= WHISPER_API_LIMIT_BYTES →
  _transcribir_wav_con_chunking_opcional E ruta dir false (mkState h lg)
  = _transcribir_chunk_whisper E ruta (mkState h lg).
Proof.
  intros Hle. unfold _transcribir_wav_con_chunking_opcional.
  by apply Z.leb_le in Hle as ->.
Qed.

End ClosedForms.

(* ================================================================== *)
(** * What a log shows *)

(** The slices taken, as (start, end) in milliseconds. *)
Definition slices (L : list Event) : list (Z * Z) :=
  omap (λ ev, match ev with EvSlice _ s e => Some (s, e) | _ => None end) L.

(** The files sent to the transcription service. *)
Definition requests (L : list Event) : list Path :=
  omap (λ ev, match ev with EvWhisper p _ => Some p | _ => None end) L.

(** The results of the requests that succeeded. *)
Definition dispatched (L : list Event) : list Resultado :=
  omap (λ ev, match ev with EvWhisper _ (Some r) => Some r | _ => None end) L.

(** Their texts: [chunk_result.get('text', '')]. *)
Definition dispatched_texts (L : list Event) : list str :=
  (λ r, default [] (r_text r)) <$> dispatched L.

(** The transcripts written, as (file, bytes). *)
Definition writes (L : list Event) : list (Path * list N) :=
  omap (λ ev, match ev with EvWrite p d => Some (p, d) | _ => None end) L.

Lemma slices_app (L1 L2 : list Event) : slices (L1 ++ L2) = slices L1 ++ slices L2.
Proof. apply omap_app. Qed.

Lemma requests_app (L1 L2 : list Event) :
  requests (L1 ++ L2) = requests L1 ++ requests L2.
Proof. apply omap_app. Qed.

Lemma dispatched_app (L1 L2 : list Event) :
  dispatched (L1 ++ L2) = dispatched L1 ++ dispatched L2.
Proof. apply omap_app. Qed.

Lemma dispatched_texts_app (L1 L2 : list Event) :
  dispatched_texts (L1 ++ L2) = dispatched_texts L1 ++ dispatched_texts L2.
Proof. unfold dispatched_texts. by rewrite dispatched_app, fmap_app. Qed.

Lemma writes_app (L1 L2 : list Event) : writes (L1 ++ L2) = writes L1 ++ writes L2.
Proof. apply omap_app. Qed.

(* ================================================================== *)
(** * The intervals of the chunked path *)

(** Interval [k] is as long as the others, the last one taking what the
    division leaves. *)
Definition equal_lengths (ivs : list (Z * Z)) (n total : Z) : Prop :=
  ∀ (k : nat) (s e : Z), ivs !! k = Some (s, e) →
    (Z.of_nat k < n - 1 → e - s = total / n) ∧
    (Z.of_nat k = n - 1 → e - s = total / n + total mod n).

(** Each interval starts where the one before ends. *)
Definition contiguous (ivs : list (Z * Z)) : Prop :=
  ∀ (k : nat) (a b : Z * Z),
    ivs !! k = Some a → ivs !! S k = Some b → a.2 = b.1.

(** No instant lies in two intervals. *)
Definition non_overlapping (ivs : list (Z * Z)) : Prop :=
  ∀ (j k : nat) (a b : Z * Z), j ≠ k →
    ivs !! j = Some a → ivs !! k = Some b →
    ∀ t : Z, ¬ (a.1 <= t < a.2 ∧ b.1 <= t < b.2).

(** The intervals hold the instants of [0, total) and no other. *)
Definition covers (ivs : list (Z * Z)) (total : Z) : Prop :=
  ∀ t : Z, 0 <= t < total ↔ ∃ iv, iv ∈ ivs ∧ iv.1 <= t < iv.2.

(** The first interval starts at 0 and the last ends at [total]. *)
Definition spans (ivs : list (Z * Z)) (total : Z) : Prop :=
  fst <$> head ivs = Some 0 ∧ snd <$> last ivs = Some total.

Definition even_split (ivs : list (Z * Z)) (n total : Z) : Prop :=
  length ivs = Z.to_nat n ∧ equal_lengths ivs n total ∧ contiguous ivs ∧
  non_overlapping ivs ∧ covers ivs total ∧ spans ivs total.

Section Intervals.

Context (n total : Z).
Hypothesis Hn : 1 <= n.
Hypothesis Htotal : n <= total.

Let cd := total / n.

(** The intervals that the loop computes. *)
Definition intervals : list (Z * Z) := chunk_bounds n cd total <$> seqZ 0 n.

Lemma cd_pos : 0 < cd.
Proof. subst cd. apply Z.div_str_pos. lia. Qed.

Lemma cd_times_n : n * cd <= total.
Proof. subst cd. apply Z.mul_div_le. lia. Qed.

Lemma chunk_duration_of_div : chunk_duration_of total n = cd.
Proof.
  unfold chunk_duration_of. fold cd. pose proof cd_pos.
  destruct (Z.eqb_spec cd 0); [lia|done].
Qed.

Lemma intervals_lookup (k : nat) (iv : Z * Z) :
  intervals !! k = Some iv ↔
  Z.of_nat k < n ∧ iv = chunk_bounds n cd total (Z.of_nat k).
Proof.
  unfold intervals. rewrite list_lookup_fmap. split.
  - intros H. apply fmap_Some in H as (i & Hi & ->).
    apply lookup_seqZ in Hi as [-> ?]. by rewrite Z.add_0_l.
  - intros [Hk ->]. by rewrite lookup_seqZ_lt, Z.add_0_l.
Qed.

Lemma intervals_nonempty (k : nat) (s e : Z) :
  intervals !! k = Some (s, e) → 0 <= s ∧ s < e ∧ e <= total.
Proof.
  intros H. apply intervals_lookup in H as [Hk Heq].
  pose proof cd_pos. pose proof cd_times_n.
  unfold chunk_bounds in Heq.
  destruct (Z.ltb_spec (Z.of_nat k) (n - 1)); inversion Heq; subst; nia.
Qed.

Lemma intervals_length : length intervals = Z.to_nat n.
Proof. unfold intervals. by rewrite length_fmap, length_seqZ. Qed.

Lemma intervals_equal_lengths : equal_lengths intervals n total.
Proof.
  intros k s e H. apply intervals_lookup in H as [Hk Heq].
  unfold chunk_bounds in Heq.
  pose proof (Z.div_mod total n ltac:(lia)) as Hdm. fold cd in Hdm.
  destruct (Z.ltb_spec (Z.of_nat k) (n - 1)); inversion Heq; subst;
    split; intros; try lia; nia.
Qed.

Lemma intervals_contiguous : contiguous intervals.
Proof.
  intros k [s e] [s' e'] H1 H2.
  apply intervals_lookup in H1 as [Hk Heq], H2 as [Hk' Heq'].
  unfold chunk_bounds in Heq, Heq'. simpl.
  destruct (Z.ltb_spec (Z.of_nat k) (n - 1)); inversion Heq; inversion Heq';
    subst; lia.
Qed.

Lemma intervals_ordered (j k : nat) (a b : Z * Z) :
  (j < k)%nat → intervals !! j = Some a → intervals !! k = Some b →
  a.2 <= b.1.
Proof.
  intros Hjk H1 H2. destruct a as [s e], b as [s' e'].
  apply intervals_lookup in H1 as [Hj Heq], H2 as [Hk Heq'].
  unfold chunk_bounds in Heq, Heq'. pose proof cd_pos. simpl.
  destruct (Z.ltb_spec (Z.of_nat j) (n - 1)); inversion Heq; inversion Heq';
    subst; nia.
Qed.

Lemma intervals_non_overlapping : non_overlapping intervals.
Proof.
  intros j k a b Hne H1 H2 t [Ha Hb].
  destruct (Nat.lt_total j k) as [Hlt | [-> | Hlt]]; [|done|].
  - pose proof (intervals_ordered _ _ _ _ Hlt H1 H2). lia.
  - pose proof (intervals_ordered _ _ _ _ Hlt H2 H1). lia.
Qed.

Lemma intervals_covers : covers intervals total.
Proof.
  intros t. pose proof cd_pos as Hcd. pose proof cd_times_n as Hcdn. split.
  - intros Ht.
    set (k := Z.min (t / cd) (n - 1)).
    assert (Hk : 0 <= k < n).
    { pose proof (Z.div_pos t cd ltac:(lia) ltac:(lia)). lia. }
    exists (chunk_bounds n cd total k). split.
    + apply list_elem_of_lookup. exists (Z.to_nat k).
      apply intervals_lookup. rewrite Z2Nat.id by lia. split; [lia|done].
    + pose proof (Z.mul_div_le t cd Hcd).
      pose proof (Z.mul_succ_div_gt t cd Hcd).
      unfold chunk_bounds. simpl.
      destruct (Z.ltb_spec k (n - 1)); simpl; subst k; nia.
  - intros ([s e] & Hin & Hse). simpl in Hse.
    apply list_elem_of_lookup in Hin as [k Hk].
    apply intervals_nonempty in Hk. lia.
Qed.

Lemma intervals_spans : spans intervals total.
Proof.
  unfold spans, intervals. split.
  - rewrite seqZ_cons by lia. simpl. by rewrite Z.mul_0_l.
  - rewrite last_lookup, length_fmap, length_seqZ, list_lookup_fmap.
    rewrite lookup_seqZ_lt by lia. simpl.
    destruct (Z.ltb_spec (0 + Z.of_nat (Nat.pred (Z.to_nat n))) (n - 1));
      [lia | done].
Qed.

Lemma intervals_even_split : even_split intervals n total.
Proof.
  unfold even_split. split_and!.
  - apply intervals_length.
  - apply intervals_equal_lengths.
  - apply intervals_contiguous.
  - apply intervals_non_overlapping.
  - apply intervals_covers.
  - apply intervals_spans.
Qed.

End Intervals.

(* ================================================================== *)
(** * What the chunk loop leaves behind *)

Section Loop.

Context (E : Env) (ruta dir : Path) (n cd total : Z).

Local Abbreviation step := (step_effect E ruta dir n cd total).
Local Abbreviation loop := (loop_effect E ruta dir n cd total).

(** One turn of the loop: its slice, if the interval is not empty. *)
Lemma step_slices (acc : Acc) (i : Z) (h : nat) :
  slices (step acc i h).2
  = let '(s, e) := chunk_bounds n cd total i in
    if e <=? s then [] else [(s, e)].
Proof.
  unfold step_effect. destruct (chunk_bounds n cd total i) as [s e].
  destruct (e <=? s); [done|]. by destruct (export_ok E _ _).
Qed.

Lemma loop_slices (ixs : list Z) :
  ∀ (acc : Acc) (h : nat),
    Forall (λ i, (chunk_bounds n cd total i).1 < (chunk_bounds n cd total i).2) ixs →
    slices (loop ixs acc h).2 = chunk_bounds n cd total <$> ixs.
Proof.
  induction ixs as [|i ixs IH]; intros acc h HF; [done|].
  apply Forall_cons in HF as [Hi HF]. cbn [loop_effect].
  pose proof (step_slices acc i h) as Hs.
  destruct (step acc i h) as [[acc1 H1] L1].
  specialize (IH acc1 (h + length H1)%nat HF).
  destruct (loop ixs acc1 (h + length H1)%nat) as [[acc2 H2] L2].
  cbn [snd] in *. rewrite slices_app, Hs, IH, fmap_cons.
  destruct (chunk_bounds n cd total i) as [s e]. cbn [fst snd] in Hi.
  by destruct (Z.leb_spec e s); [lia|].
Qed.

(** One turn of the loop: the text it adds. *)
Lemma step_text (acc : Acc) (i : Z) (h : nat) :
  all_text (step acc i h).1.1
  = all_text acc
    ++ concat ((λ t, t ++ lit " ") <$> dispatched_texts (step acc i h).2).
Proof.
  unfold step_effect. destruct (chunk_bounds n cd total i) as [s e].
  destruct (e <=? s); [by rewrite app_nil_r|].
  destruct (export_ok E _ _); [|by rewrite app_nil_r].
  unfold whisper_result. cbn [fst snd].
  destruct (api_transcribe E _) as [respuesta|]; cbn.
  - by rewrite app_nil_r.
  - by rewrite app_nil_r.
Qed.

Lemma loop_text (ixs : list Z) :
  ∀ (acc : Acc) (h : nat),
    all_text (loop ixs acc h).1.1
    = all_text acc
      ++ concat ((λ t, t ++ lit " ") <$> dispatched_texts (loop ixs acc h).2).
Proof.
  induction ixs as [|i ixs IH]; intros acc h; cbn [loop_effect].
  - by rewrite app_nil_r.
  - pose proof (step_text acc i h) as Hs.
    destruct (step acc i h) as [[acc1 H1] L1].
    specialize (IH acc1 (h + length H1)%nat).
    destruct (loop ixs acc1 (h + length H1)%nat) as [[acc2 H2] L2].
    cbn [fst snd] in *. rewrite IH, Hs.
    by rewrite dispatched_texts_app, fmap_app, concat_app, app_assoc.
Qed.

(** The loop writes no transcript. *)
Lemma loop_writes (ixs : list Z) :
  ∀ (acc : Acc) (h : nat), writes (loop ixs acc h).2 = [].
Proof.
  induction ixs as [|i ixs IH]; intros acc h; cbn [loop_effect]; [done|].
  assert (Hs : writes (step acc i h).2 = []).
  { unfold step_effect. destruct (chunk_bounds n cd total i) as [s e].
    destruct (e <=? s); [done|]. by destruct (export_ok E _ _). }
  destruct (step acc i h) as [[acc1 H1] L1].
  specialize (IH acc1 (h + length H1)%nat).
  destruct (loop ixs acc1 (h + length H1)%nat) as [[acc2 H2] L2].
  cbn [snd] in *. by rewrite writes_app, Hs, IH.
Qed.

(** The list of combined segments only grows. *)
Lemma step_segments_prefix (acc : Acc) (i : Z) (h : nat) :
  all_segments acc `prefix_of` all_segments (step acc i h).1.1.
Proof.
  unfold step_effect. destruct (chunk_bounds n cd total i) as [s e].
  destruct (e <=? s); [done|]. destruct (export_ok E _ _); [|done].
  cbn [fst]. unfold absorbed. destruct (whisper_result E _ _); [|done].
  cbn. by apply prefix_app_r.
Qed.

Lemma loop_segments_prefix (ixs : list Z) :
  ∀ (acc : Acc) (h : nat),
    all_segments acc `prefix_of` all_segments (loop ixs acc h).1.1.
Proof.
  induction ixs as [|i ixs IH]; intros acc h; cbn [loop_effect]; [done|].
  pose proof (step_segments_prefix acc i h) as Hs.
  destruct (step acc i h) as [[acc1 H1] L1].
  specialize (IH acc1 (h + length H1)%nat).
  destruct (loop ixs acc1 (h + length H1)%nat) as [[acc2 H2] L2].
  cbn [fst] in *. by etrans.
Qed.

(** Where the objects of chunk [i] end up.  When its request is sent with
    [hi] objects in the heap, the segments that the service sent are the
    objects [hi], [hi + 1], ... and their re-based copies come right
    after them; the copies are in the combined list. *)
Definition chunk_objects_at (i : Z) (ss : list Segment) (h : nat)
    (out : Acc * list Segment * list Event) (hi : nat) : Prop :=
  let '(acc', H, L) := out in
  let file := chunk_filename ruta dir i in
  let offset := chunk_start_time_s (chunk_bounds n cd total i).1 in
  (h ≤ hi)%nat ∧
  EvWhisper file (whisper_result E file hi) ∈ L ∧
  ∀ (j : nat) (sg : Segment), ss !! j = Some sg →
    H !! (hi - h + j)%nat = Some sg ∧
    H !! (hi - h + length ss + j)%nat = Some (rebased offset sg) ∧
    (hi + length ss + j)%nat ∈ all_segments acc'.

Definition chunk_succeeds (i : Z) (ss : list Segment) : Prop :=
  let '(s, e) := chunk_bounds n cd total i in
  let file := chunk_filename ruta dir i in
  s < e ∧
  export_ok E (Slice (FromWav ruta) s e) file = true ∧
  ∃ respuesta, api_transcribe E file = Some respuesta ∧
               api_segments respuesta = Some ss.

Lemma step_objects (acc : Acc) (i : Z) (h : nat) (ss : list Segment) :
  chunk_succeeds i ss →
  chunk_objects_at i ss h (step acc i h) h.
Proof.
  unfold chunk_succeeds, chunk_objects_at, step_effect.
  destruct (chunk_bounds n cd total i) as [s e].
  intros (Hse & Hex & respuesta & Hapi & Hss).
  destruct (Z.leb_spec e s) as [?|_]; [lia|]. rewrite Hex.
  unfold whisper_objects, whisper_result. rewrite Hapi, Hss. cbn.
  split; [lia|]. split; [rewrite !elem_of_cons; auto|].
  intros j sg Hj. assert (j < length ss)%nat by (by eapply lookup_lt_Some).
  rewrite Nat.sub_diag. cbn. split_and!.
  - by apply lookup_app_l_Some.
  - rewrite lookup_app_r by lia.
    replace (length ss + j - length ss)%nat with j by lia.
    by rewrite list_lookup_fmap, Hj.
  - apply elem_of_app; right. rewrite length_seq. apply elem_of_seq. lia.
Qed.

Lemma loop_objects (ixs : list Z) (i : Z) (ss : list Segment) :
  i ∈ ixs → chunk_succeeds i ss →
  ∀ (acc : Acc) (h : nat), ∃ hi, chunk_objects_at i ss h (loop ixs acc h) hi.
Proof.
  intros Hin Hok. induction ixs as [|i' ixs IH]; intros acc h.
  { by apply elem_of_nil in Hin. }
  cbn [loop_effect].
  apply elem_of_cons in Hin as [<- | Hin].
  - pose proof (step_objects acc i h ss Hok) as Hs.
    destruct (step acc i h) as [[acc1 H1] L1].
    pose proof (loop_segments_prefix ixs acc1 (h + length H1)%nat) as Hp.
    destruct (loop ixs acc1 (h + length H1)%nat) as [[acc2 H2] L2].
    exists h. unfold chunk_objects_at in *. cbn [fst] in Hp.
    destruct Hs as (_ & Hev & Hobj). split; [lia|].
    split; [apply elem_of_app; by left|].
    intros j sg Hj. destruct (Hobj j sg Hj) as (Ha & Hb & Hc). split_and!.
    + by apply lookup_app_l_Some.
    + by apply lookup_app_l_Some.
    + destruct Hp as [k ->]. apply elem_of_app; by left.
  - destruct (step acc i' h) as [[acc1 H1] L1].
    destruct (IH Hin acc1 (h + length H1)%nat) as [hi Hhi].
    destruct (loop ixs acc1 (h + length H1)%nat) as [[acc2 H2] L2].
    exists hi. unfold chunk_objects_at in *.
    destruct Hhi as (Hle & Hev & Hobj). split; [lia|].
    split; [apply elem_of_app; by right|].
    intros j sg Hj. destruct (Hobj j sg Hj) as (Ha & Hb & Hc). split_and!.
    + rewrite lookup_app_r by lia. rewrite <- Ha. f_equal. lia.
    + rewrite lookup_app_r by lia. rewrite <- Hb. f_equal. lia.
    + done.
Qed.

End Loop.

(* ================================================================== *)
(** * Strings: what [strip] does to the accumulated text *)

Lemma rstrip_snoc_space (s : str) (c : N) :
  isspace c = true → rstrip (s ++ [c]) = rstrip s.
Proof. intros Hc. unfold rstrip. rewrite reverse_snoc. simpl. by rewrite Hc. Qed.

Lemma strip_snoc_space (s : str) : strip (s ++ lit " ") = strip s.
Proof.
  change (lit " ") with [32%N]. unfold strip.
  by rewrite (rstrip_snoc_space s 32%N).
Qed.

Lemma concat_spaced (ts : list str) :
  ts ≠ [] →
  concat ((λ t, t ++ lit " ") <$> ts) = join (lit " ") ts ++ lit " ".
Proof.
  induction ts as [|t ts IH]; [done|]. intros _.
  destruct ts as [|t' ts].
  - simpl. by rewrite app_nil_r.
  - change (concat ((λ t, t ++ lit " ") <$> t :: t' :: ts))
      with ((t ++ lit " ") ++ concat ((λ t, t ++ lit " ") <$> t' :: ts)).
    rewrite IH by done.
    change (join (lit " ") (t :: t' :: ts))
      with (t ++ lit " " ++ join (lit " ") (t' :: ts)).
    by rewrite <- !app_assoc.
Qed.

Lemma strip_accumulated (ts : list str) :
  strip (concat ((λ t, t ++ lit " ") <$> ts)) = strip (join (lit " ") ts).
Proof.
  destruct ts as [|t ts]; [done|].
  by rewrite concat_spaced, strip_snoc_space.
Qed.

Lemma accumulated_nil (L : list Event) :
  concat ((λ t, t ++ lit " ") <$> dispatched_texts L) = [] ↔ dispatched L = [].
Proof.
  unfold dispatched_texts. destruct (dispatched L) as [|r rs]; [done|].
  split; [|done]. simpl. intros H.
  apply app_eq_nil in H as [H _]. by apply app_eq_nil in H as [_ H].
Qed.

Lemma dispatched_elem (L : list Event) (p : Path) (r : Resultado) :
  EvWhisper p (Some r) ∈ L → dispatched L ≠ [].
Proof.
  intros Hin Hnil. apply list_elem_of_split in Hin as (L1 & L2 & ->).
  rewrite dispatched_app in Hnil. apply app_eq_nil in Hnil as [_ Hnil].
  discriminate Hnil.
Qed.

(* ================================================================== *)
(** * The size-constrained transcriber *)

Lemma num_chunks_of_max (file_size : Z) :
  num_chunks_of file_size
  = Z.max 1 (ceil_div file_size WHISPER_API_LIMIT_BYTES).
Proof.
  unfold num_chunks_of, ceil_div, WHISPER_API_LIMIT_BYTES.
  pose proof (Z.div_mod (- file_size) (24 * 1024 * 1024) ltac:(lia)).
  pose proof (Z.mod_pos_bound (- file_size) (24 * 1024 * 1024) ltac:(lia)).
  destruct (Z.ltb_spec (24 * 1024 * 1024) file_size); lia.
Qed.

Lemma num_chunks_of_pos (file_size : Z) : 1 <= num_chunks_of file_size.
Proof. rewrite num_chunks_of_max. lia. Qed.

Lemma chunk_duration_pos_iff (total n : Z) :
  1 <= n → (0 < chunk_duration_of total n ↔ n <= total).
Proof.
  intros Hn. unfold chunk_duration_of.
  pose proof (Z.div_mod total n ltac:(lia)).
  pose proof (Z.mod_pos_bound total n ltac:(lia)).
  destruct (Z.eqb_spec (total / n) 0) as [Hq|Hq]; simpl.
  - destruct (Z.eqb_spec n 1); nia.
  - split; intros; nia.
Qed.

Lemma chunk_bounds_nonempty (total n i : Z) :
  1 <= n → 0 < chunk_duration_of total n → 0 <= i < n →
  let b := chunk_bounds n (chunk_duration_of total n) total i in b.1 < b.2.
Proof.
  intros Hn Hcd Hi. pose proof (proj1 (chunk_duration_pos_iff total n Hn) Hcd).
  rewrite chunk_duration_of_div in * by lia.
  pose proof (cd_times_n n total ltac:(lia)).
  unfold chunk_bounds. simpl. destruct (Z.ltb_spec i (n - 1)); simpl; nia.
Qed.

(** Joining a component of two characters or more adds it to the path. *)
Lemma dropped_component_long (s : str) :
  (2 ≤ length s)%nat → dropped_component s = false.
Proof. destruct s as [|a [|b s]]; cbn [length dropped_component]; [lia..|done]. Qed.

Lemma join_path_long (p : Path) (s : str) :
  (2 ≤ length s)%nat →
  join_path p s = {| parent := parent p ++ [name p]; name := s |}.
Proof. intros Hs. unfold join_path. by rewrite dropped_component_long. Qed.

Lemma chunk_filename_eq (ruta dir : Path) (i : Z) :
  chunk_filename ruta dir i
  = {| parent := parent dir ++ [name dir];
       name := stem ruta ++ lit "_chunk_" ++ of_int (i + 1) ++ lit ".wav" |}.
Proof.
  apply join_path_long. rewrite !length_app.
  change (length (lit "_chunk_")) with 7%nat. lia.
Qed.

(** The chunks of one unit go to different files, so an oracle that
    answers by file can give any sequence of outcomes to the chunks. *)
Lemma lit_inj (s1 s2 : string) : lit s1 = lit s2 → s1 = s2.
Proof.
  unfold lit. intros Heq.
  rewrite <- (string_of_list_ascii_of_string s1),
          <- (string_of_list_ascii_of_string s2).
  f_equal. revert Heq.
  generalize (list_ascii_of_string s1) (list_ascii_of_string s2).
  intros l1. induction l1 as [|a l1 IH]; intros [|b l2]; try done.
  rewrite !fmap_cons. intros [= Hab Hl]. f_equal; [|by apply IH].
  by rewrite <- (ascii_N_embedding a), <- (ascii_N_embedding b), Hab.
Qed.

Lemma chunk_filename_inj (ruta dir : Path) (i j : Z) :
  chunk_filename ruta dir i = chunk_filename ruta dir j → i = j.
Proof.
  rewrite !chunk_filename_eq. unfold of_int. intros Heq.
  apply (f_equal name) in Heq. cbn [name] in Heq.
  apply (app_inv_head (stem ruta)) in Heq.
  apply (app_inv_head (lit "_chunk_")) in Heq.
  apply (app_inv_tail (lit ".wav")) in Heq.
  apply lit_inj, (inj pretty) in Heq. lia.
Qed.

(** ** Sample worlds, for the concrete runs below *)

#[global] Instance Path_eq_dec : EqDecision Path.
Proof. solve_decision. Defined.

Definition tmp : Path := mkPath [] (lit "tmp").
Definition wav_a : Path := mkPath [lit "tmp"; lit "wav"] (lit "a.wav").
Definition chunks_dir : Path := mkPath [lit "tmp"] (lit "chunks_full").

Definition seg_hola : Segment :=
  {| seg_start := Some 0.5%float; seg_end := Some 1.5%float;
     seg_text := lit " hola" |}.

Definition respuesta_hola : ApiRespuesta :=
  {| api_text := Some (lit "hola"); api_language := Some (lit "es");
     api_segments := Some [seg_hola] |}.

Definition respuesta_silencio : ApiRespuesta :=
  {| api_text := Some []; api_language := Some (lit "es");
     api_segments := Some [] |}.

(** A world where nothing fails: every file has [size] bytes and lasts
    [total] ms, the service answers [api], diarization gives [turnos]. *)
Definition world (size total : Z) (api : Path → option ApiRespuesta)
    (turnos : option (list Turn)) : Env :=
  {| decode_ok := λ _, true;
     st_size := λ _, size;
     from_wav := λ _, Some total;
     slice_ok := λ _ _ _, true;
     export_ok := λ _ _, true;
     api_transcribe := api;
     di_pipeline := Some (λ _, turnos);
     is_dir := λ _, true;
     glob := λ _, [];
     is_file := λ _, true;
     tmpdir := tmp |}.

(** A short file. *)
Definition E_small : Env := world 320044 10000 (λ _, Some respuesta_hola) None.

(** A 60 MB file of 12.001 s: three chunks. *)
Definition E_large : Env := world 60000000 12001 (λ _, Some respuesta_hola) None.

(** A 30 MB file whose first half is silent. *)
Definition E_silent_start : Env :=
  world 30000000 10000
    (λ p, if bool_decide (p = chunk_filename wav_a chunks_dir 0)
          then Some respuesta_silencio else Some respuesta_hola)
    None.

(** A WAV with no audio in it. *)
Definition E_empty : Env := world 44 0 (λ _, Some respuesta_hola) None.

(** A world where the service is down. *)
Definition E_down : Env := world 60000000 12001 (λ _, None) None.

(* ------------------------------------------------------------------ *)
(** ** C2: the direct path *)

(** C2. For every unit whose size is at most the fixed budget of
    24 * 1024 * 1024 bytes and whose chunking is not forced, the transcriber
    is the transcription primitive: it returns the very result of
    [_transcribir_chunk_whisper] on the unit and leaves the very state that
    the primitive leaves (no re-joined text, no re-based segment, no
    language of its own), and the log gains one event, the single request
    for the unit itself. *)
Theorem C2_direct_single_dispatch (E : Env) (ruta dir : Path) (st : State) :
  st_size E ruta <= WHISPER_API_LIMIT_BYTES →
  WHISPER_API_LIMIT_BYTES = 25165824 ∧
  ∃ (res : option Resultado) (st' : State),
    _transcribir_chunk_whisper E ruta st = (Some res, st') ∧
    _transcribir_wav_con_chunking_opcional E ruta dir false st = (Some res, st') ∧
    log st' = log st ++ [EvWhisper ruta res] ∧
    requests (drop (length (log st)) (log st')) = [ruta].
Proof.
  intros Hle. split; [done|]. destruct st as [h lg].
  rewrite direct_run by done. rewrite whisper_run.
  eexists _, _. split_and!; [done..|].
  cbn [log]. by rewrite drop_app_length.
Qed.

Lemma C2_witness :
  WHISPER_API_LIMIT_BYTES = 25165824 ∧
  ∃ (res : option Resultado) (st' : State),
    _transcribir_chunk_whisper E_small wav_a st0 = (Some res, st') ∧
    _transcribir_wav_con_chunking_opcional E_small wav_a chunks_dir false st0
    = (Some res, st') ∧
    log st' = log st0 ++ [EvWhisper wav_a res] ∧
    requests (drop (length (log st0)) (log st')) = [wav_a].
Proof.
  apply (C2_direct_single_dispatch E_small wav_a chunks_dir st0).
  by vm_compute.
Defined.

(* ------------------------------------------------------------------ *)
(** ** C4: no successful chunk, no result *)

(** A text that holds nothing but white space: the empty text of a silent
    chunk, for one. *)
Definition blank (t : str) : Prop := Forall (λ c, isspace c = true) t.

Lemma lstrip_blank (t : str) : blank t → lstrip t = [].
Proof.
  induction 1 as [|c t Hc _ IH]; [done|]. cbn [lstrip]. by rewrite Hc.
Qed.

Lemma strip_blank (t : str) : blank t → strip t = [].
Proof.
  intros Ht. unfold strip, rstrip.
  rewrite (lstrip_blank (reverse t)) by (by apply Forall_reverse). done.
Qed.

Lemma accumulated_blank (ts : list str) :
  Forall blank ts → blank (concat ((λ t, t ++ lit " ") <$> ts)).
Proof.
  induction 1 as [|t ts Ht _ IH]; [constructor|].
  rewrite fmap_cons. cbn [concat]. apply Forall_app. split; [|done].
  apply Forall_app. split; [done|]. by repeat constructor.
Qed.

Lemma blank_of_lstrip (t : str) : blank (lstrip t) → blank t.
Proof.
  unfold blank. induction t as [|c t IH]; [done|]. cbn [lstrip].
  destruct (isspace c) eqn:Hc; [|done]. intros Ht. apply Forall_cons. auto.
Qed.

Lemma blank_of_strip (t : str) : strip t = [] → blank t.
Proof.
  unfold strip, rstrip. intros Ht.
  apply Forall_reverse, blank_of_lstrip, Forall_reverse, blank_of_lstrip.
  rewrite Ht. apply Forall_nil_2.
Qed.

Lemma blank_of_strip_accumulated (ts : list str) :
  strip (concat ((λ t, t ++ lit " ") <$> ts)) = [] → Forall blank ts.
Proof.
  intros Hs. apply blank_of_strip in Hs. unfold blank in *.
  induction ts as [|t ts IH]; [constructor|].
  rewrite fmap_cons in Hs. cbn [concat] in Hs.
  apply Forall_app in Hs as [Ht Hs]. apply Forall_app in Ht as [Ht _].
  constructor; auto.
Qed.

(** C4, as the code has it.  On the chunked path the transcriber always
    returns, and what it returns is [None] exactly when none of the
    requests it sent came back with a result: a unit with no successful
    chunk has no result, and a unit with a successful chunk has one.  The
    test of line 190 is on [all_text], to which every successful chunk
    adds its text and a blank; so a unit whose successful chunks brought
    no text at all (empty texts, or white space) does not fail: it has a
    result, whose text is empty. *)
Theorem C4_no_success_no_result (E : Env) (ruta dir : Path)
    (forzar_chunking : bool) (st : State) :
  chunked E ruta forzar_chunking →
  ∃ (res : option Resultado) (st' : State) (L : list Event),
    _transcribir_wav_con_chunking_opcional E ruta dir forzar_chunking st
    = (Some res, st') ∧
    log st' = log st ++ L ∧
    (res = None ↔ dispatched L = []) ∧
    (dispatched L ≠ [] → Forall blank (dispatched_texts L) →
     ∃ r, res = Some r ∧ r_text r = Some []).
Proof.
  intros Hc. destruct st as [h lg].
  destruct (chunked_run_cases E ruta dir forzar_chunking h lg Hc)
    as [-> | (total & _ & _ & ->)].
  - exists None, (mkState h lg), []. by rewrite app_nil_r.
  - set (n := num_chunks_of (st_size E ruta)).
    pose proof (loop_text E ruta dir n (chunk_duration_of total n) total
                  (seqZ 0 n) acc0 (length h)) as Ht.
    destruct (loop_effect _ _ _ _ _ _ _ _ _) as [[acc H] L].
    cbn [fst snd] in Ht. cbn [all_text acc0 app] in Ht.
    eexists _, _, L. split_and!; [done..| |].
    + rewrite <- accumulated_nil, <- Ht. unfold combined_result.
      by destruct (all_text acc).
    + intros Hd Hblank. unfold combined_result.
      destruct (all_text acc) as [|c cs] eqn:Hacc.
      { symmetry in Ht. by apply accumulated_nil in Ht. }
      cbn [truthy]. eexists. split; [done|]. cbn [r_text].
      rewrite Ht, strip_blank; [done|]. by apply accumulated_blank.
Qed.

Lemma C4_witness :
  ∃ (res : option Resultado) (st' : State) (L : list Event),
    _transcribir_wav_con_chunking_opcional E_down wav_a chunks_dir false st0
    = (Some res, st') ∧
    log st' = log st0 ++ L ∧
    (res = None ↔ dispatched L = []) ∧
    (dispatched L ≠ [] → Forall blank (dispatched_texts L) →
     ∃ r, res = Some r ∧ r_text r = Some []).
Proof.
  apply (C4_no_success_no_result E_down wav_a chunks_dir false st0).
  right. by vm_compute.
Defined.

(** A 60 MB file in which nobody speaks: every request succeeds with the
    empty text. *)
Definition E_silent : Env := world 60000000 12001 (λ _, Some respuesta_silencio) None.

(** C4 as stated fails.  In that file the three chunks are sent and each
    comes back with the empty text, so that no interval produced any
    text; [all_text] is three blanks, which Python takes for true, and the
    unit does not fail: it has a result, an empty one. *)
Lemma C4_counterexample :
  ∃ (r : Resultado) (st' : State),
    chunked E_silent wav_a false ∧
    _transcribir_wav_con_chunking_opcional E_silent wav_a chunks_dir false st0
    = (Some (Some r), st') ∧
    dispatched_texts (log st') = [[]; []; []] ∧
    r_text r = Some [] ∧ r_segments r = Some [].
Proof. eexists _, _. split_and!; [right|..]; by vm_compute. Qed.

(** There the three chunks succeed, so the unit has a result; its text is
    empty (the callers then treat it as no text, see [has_text]). *)
Example silent_unit_run :
  ∃ r st', _transcribir_wav_con_chunking_opcional E_silent wav_a chunks_dir
             false st0
           = (Some (Some r), st') ∧
           length (dispatched (log st')) = 3%nat ∧
           r_text r = Some [] ∧ has_text (Some r) = None.
Proof. eexists _, _. split_and!; by vm_compute. Qed.

(** In the world where the service is down the three requests are sent and
    the unit has no result. *)
Example service_down_run :
  ∃ st', _transcribir_wav_con_chunking_opcional E_down wav_a chunks_dir false st0
         = (Some None, st') ∧
         length (requests (log st')) = 3%nat ∧ dispatched (log st') = [].
Proof. eexists. by vm_compute. Qed.

(* ------------------------------------------------------------------ *)
(** ** C5: the text of a chunked unit *)

(** C5, as the code has it.  On the chunked path, for every sequence of
    chunk outcomes with at least one success, the unit has a result and its
    text is the texts of the successful requests, in order, joined by one
    blank, with the white space at both ends of the whole removed
    ([all_text.strip()]). *)
Theorem C5_text_is_stripped_join (E : Env) (ruta dir : Path)
    (forzar_chunking : bool) (st : State) :
  chunked E ruta forzar_chunking →
  ∃ (res : option Resultado) (st' : State) (L : list Event),
    _transcribir_wav_con_chunking_opcional E ruta dir forzar_chunking st
    = (Some res, st') ∧
    log st' = log st ++ L ∧
    (dispatched L ≠ [] →
     ∃ r, res = Some r ∧
          r_text r = Some (strip (join (lit " ") (dispatched_texts L)))).
Proof.
  intros Hc. destruct st as [h lg].
  destruct (chunked_run_cases E ruta dir forzar_chunking h lg Hc)
    as [-> | (total & _ & _ & ->)].
  - exists None, (mkState h lg), []. by rewrite app_nil_r.
  - set (n := num_chunks_of (st_size E ruta)).
    pose proof (loop_text E ruta dir n (chunk_duration_of total n) total
                  (seqZ 0 n) acc0 (length h)) as Ht.
    destruct (loop_effect _ _ _ _ _ _ _ _ _) as [[acc H] L].
    cbn [fst snd] in Ht. cbn [all_text acc0 app] in Ht.
    eexists _, _, L. split_and!; [done..|]. intros Hd.
    unfold combined_result. rewrite Ht, strip_accumulated.
    destruct (concat _) as [|c cs] eqn:Hcc.
    + by apply accumulated_nil in Hcc.
    + by eexists.
Qed.

Lemma C5_witness :
  ∃ (res : option Resultado) (st' : State) (L : list Event),
    _transcribir_wav_con_chunking_opcional E_large wav_a chunks_dir false st0
    = (Some res, st') ∧
    log st' = log st0 ++ L ∧
    (dispatched L ≠ [] →
     ∃ r, res = Some r ∧
          r_text r = Some (strip (join (lit " ") (dispatched_texts L)))).
Proof.
  apply (C5_text_is_stripped_join E_large wav_a chunks_dir false st0).
  right. by vm_compute.
Defined.

(** C5 as stated fails.  A 30 MB unit is cut in two; the first half is
    silent and comes back with the empty text, the second comes back with
    "hola".  Both requests succeed; the texts joined by a blank are
    " hola", and the unit's text is "hola". *)
Lemma C5_counterexample :
  ∃ (r : Resultado) (st' : State),
    _transcribir_wav_con_chunking_opcional E_silent_start wav_a chunks_dir
      false st0
    = (Some (Some r), st') ∧
    dispatched_texts (log st') = [[]; lit "hola"] ∧
    join (lit " ") (dispatched_texts (log st')) = lit " hola" ∧
    r_text r = Some (lit "hola") ∧
    r_text r ≠ Some (join (lit " ") (dispatched_texts (log st'))).
Proof. eexists _, _. split_and!; [by vm_compute..|]. by vm_compute. Qed.

(* ------------------------------------------------------------------ *)
(** ** C1: the intervals *)

(** C1, as the code has it.  A unit on the chunked path that loads and
    lasts at least one millisecond per chunk ([num_chunks <= total]; a
    shorter one is turned away by the guard of line 145 before any slice)
    is cut into [num_chunks = max(1, ceil(size / budget))] intervals.  The
    slices taken are these intervals in order: each is [total / num_chunks]
    ms long and the last one takes the remainder too; each starts where the
    one before ends; no instant is in two of them; together they hold
    exactly the instants of [0, total). *)
Theorem C1_even_split (E : Env) (ruta dir : Path) (forzar_chunking : bool)
    (total : Z) (st : State) :
  chunked E ruta forzar_chunking →
  from_wav E ruta = Some total →
  num_chunks_of (st_size E ruta) <= total →
  let n := num_chunks_of (st_size E ruta) in
  n = Z.max 1 (ceil_div (st_size E ruta) WHISPER_API_LIMIT_BYTES) ∧
  ∃ (res : option Resultado) (st' : State) (L : list Event),
    _transcribir_wav_con_chunking_opcional E ruta dir forzar_chunking st
    = (Some res, st') ∧
    log st' = log st ++ L ∧
    even_split (slices L) n total.
Proof.
  intros Hc Hw Hle n. split; [apply num_chunks_of_max|].
  pose proof (num_chunks_of_pos (st_size E ruta)) as Hn. fold n in Hn, Hle.
  destruct st as [h lg].
  assert (Hcd : 0 < chunk_duration_of total n)
    by (by apply chunk_duration_pos_iff).
  rewrite (chunked_run E ruta dir forzar_chunking total) by done. fold n.
  pose proof (loop_slices E ruta dir n (chunk_duration_of total n) total
                (seqZ 0 n) acc0 (length h)) as Hs.
  destruct (loop_effect _ _ _ _ _ _ _ _ _) as [[acc H] L]. cbn [snd] in Hs.
  eexists _, _, L. split_and!; [done..|].
  rewrite Hs.
  - rewrite chunk_duration_of_div by done.
    by apply intervals_even_split.
  - apply Forall_forall. intros i Hi. apply elem_of_seqZ in Hi.
    apply chunk_bounds_nonempty; [done..|lia].
Qed.

Lemma C1_witness :
  let n := num_chunks_of (st_size E_large wav_a) in
  n = Z.max 1 (ceil_div (st_size E_large wav_a) WHISPER_API_LIMIT_BYTES) ∧
  ∃ (res : option Resultado) (st' : State) (L : list Event),
    _transcribir_wav_con_chunking_opcional E_large wav_a chunks_dir false st0
    = (Some res, st') ∧
    log st' = log st0 ++ L ∧
    even_split (slices L) n 12001.
Proof.
  apply (C1_even_split E_large wav_a chunks_dir false 12001 st0).
  - right. by vm_compute.
  - reflexivity.
  - by vm_compute.
Defined.

(** The three intervals of the 60 MB unit of 12.001 s. *)
Example large_unit_slices :
  ∃ res st',
    _transcribir_wav_con_chunking_opcional E_large wav_a chunks_dir false st0
    = (Some res, st') ∧
    slices (log st') = [(0, 4000); (4000, 8000); (8000, 12001)].
Proof. eexists _, _. split; by vm_compute. Qed.

(** C1 as stated fails.  The whole-file path forces chunking on a WAV that
    holds no audio: one chunk is asked for, the chunk duration is 0, the
    guard of line 145 returns [None], and no interval is made at all. *)
Lemma C1_counterexample :
  chunked E_empty wav_a true ∧
  from_wav E_empty wav_a = Some 0 ∧
  num_chunks_of (st_size E_empty wav_a) = 1 ∧
  _transcribir_wav_con_chunking_opcional E_empty wav_a chunks_dir true st0
  = (Some None, st0) ∧
  ¬ even_split (slices (log st0)) (num_chunks_of (st_size E_empty wav_a)) 0.
Proof.
  split_and!; [by left | done | done | done |].
  intros (Hlen & _). vm_compute in Hlen. discriminate Hlen.
Qed.

(* ------------------------------------------------------------------ *)
(** ** C3: re-based copies *)

(** C3. On the chunked path, take a chunk [i] whose export and request
    succeed, and the [j]-th segment [sg] that the service sent for it.
    Then the unit has a result, and
    - the request for the chunk returned a dictionary [r] whose [j]-th
      segment is an object [l0] that, when the transcriber is done, still
      holds [sg]: the chunk's own segment was not written to;
    - the combined segments hold another object [l], different from [l0],
      whose ['start'] and ['end'] are the chunk's offset in seconds, the
      binary64 quotient of the chunk's first millisecond by 1000, plus
      (binary64 addition) the ['start'] and ['end'] of [sg] (0 for a
      missing key), and whose other keys are those of [sg];
    - every object that existed before the call is as it was. *)
Theorem C3_rebased_copies (E : Env) (ruta dir : Path) (forzar_chunking : bool)
    (total : Z) (st : State) (i : Z) (respuesta : ApiRespuesta)
    (ss : list Segment) (j : nat) (sg : Segment) :
  chunked E ruta forzar_chunking →
  from_wav E ruta = Some total →
  let n := num_chunks_of (st_size E ruta) in
  let cd := chunk_duration_of total n in
  let start_ms := (chunk_bounds n cd total i).1 in
  let end_ms := (chunk_bounds n cd total i).2 in
  let file := chunk_filename ruta dir i in
  let offset := PrimFloat.div (PyFloat.of_Z (i * cd)) 1000%float in
  0 < cd →
  0 <= i < n →
  export_ok E (Slice (FromWav ruta) start_ms end_ms) file = true →
  api_transcribe E file = Some respuesta →
  api_segments respuesta = Some ss →
  ss !! j = Some sg →
  ∃ (res r : Resultado) (st' : State) (L : list Event)
    (own combined : list loc) (l0 l : loc),
    _transcribir_wav_con_chunking_opcional E ruta dir forzar_chunking st
    = (Some (Some res), st') ∧
    log st' = log st ++ L ∧
    EvWhisper file (Some r) ∈ L ∧
    r_segments r = Some own ∧ own !! j = Some l0 ∧
    heap st' !! l0 = Some sg ∧
    r_segments res = Some combined ∧ l ∈ combined ∧ l ≠ l0 ∧
    heap st' !! l
    = Some {| seg_start :=
                Some (PrimFloat.add offset (default 0%float (seg_start sg)));
              seg_end :=
                Some (PrimFloat.add offset (default 0%float (seg_end sg)));
              seg_text := seg_text sg |} ∧
    heap st `prefix_of` heap st'.
Proof.
  intros Hc Hw n cd start_ms end_ms file offset Hcd Hi Hex Hapi Hss Hj.
  pose proof (num_chunks_of_pos (st_size E ruta)) as Hn. fold n in Hn.
  destruct st as [h lg].
  rewrite (chunked_run E ruta dir forzar_chunking total) by done.
  fold n. fold cd.
  assert (Hok : chunk_succeeds E ruta dir n cd total i ss).
  { unfold chunk_succeeds.
    pose proof (chunk_bounds_nonempty total n i Hn Hcd Hi) as Hb.
    fold cd in Hb. cbn zeta in Hb. subst start_ms end_ms file.
    destruct (chunk_bounds n cd total i) as [s e]. eauto. }
  assert (Hin : i ∈ seqZ 0 n) by (apply elem_of_seqZ; lia).
  destruct (loop_objects E ruta dir n cd total (seqZ 0 n) i ss Hin Hok
              acc0 (length h)) as [hi Hobj].
  pose proof (loop_text E ruta dir n cd total (seqZ 0 n) acc0 (length h)) as Ht.
  destruct (loop_effect _ _ _ _ _ _ _ _ _) as [[acc H] L].
  cbn [fst snd] in Ht. cbn [all_text acc0 app] in Ht.
  unfold chunk_objects_at in Hobj. destruct Hobj as (Hle & Hev & Hobj).
  destruct (Hobj j sg Hj) as (Ha & Hb & Hcmb).
  fold file in Hev. unfold whisper_result in Hev. rewrite Hapi, Hss in Hev.
  cbn [fmap option_fmap option_map] in Hev.
  assert (Hlen : (j < length ss)%nat) by (by eapply lookup_lt_Some).
  assert (Htxt : all_text acc ≠ []).
  { rewrite Ht. intros Hnil. apply accumulated_nil in Hnil.
    by eapply dispatched_elem. }
  unfold combined_result. destruct (all_text acc) as [|c cs] eqn:Hacc; [done|].
  cbn [truthy].
  eexists _, _, _, L, _, _, (hi + j)%nat, (hi + length ss + j)%nat.
  split_and!; [reflexivity | reflexivity | exact Hev | reflexivity | | |
               reflexivity | exact Hcmb | lia | | ].
  - cbn [r_segments]. rewrite lookup_seq. split; [done|lia].
  - cbn [heap]. rewrite lookup_app_r by lia. rewrite <- Ha. f_equal. lia.
  - cbn [heap]. rewrite lookup_app_r by lia.
    replace (hi + length ss + j - length h)%nat
      with (hi - length h + length ss + j)%nat by lia.
    exact Hb.
  - cbn [heap]. by apply prefix_app_r.
Qed.

Lemma C3_witness :
  ∃ (res r : Resultado) (st' : State) (L : list Event)
    (own combined : list loc) (l0 l : loc),
    _transcribir_wav_con_chunking_opcional E_large wav_a chunks_dir false st0
    = (Some (Some res), st') ∧
    log st' = log st0 ++ L ∧
    EvWhisper (chunk_filename wav_a chunks_dir 1) (Some r) ∈ L ∧
    r_segments r = Some own ∧ own !! 0%nat = Some l0 ∧
    heap st' !! l0
    = Some {| seg_start := Some 0.5%float; seg_end := Some 1.5%float;
              seg_text := lit " hola" |} ∧
    r_segments res = Some combined ∧ l ∈ combined ∧ l ≠ l0 ∧
    heap st' !! l
    = Some {| seg_start := Some 4.5%float; seg_end := Some 5.5%float;
              seg_text := lit " hola" |} ∧
    heap st0 `prefix_of` heap st'.
Proof.
  apply (C3_rebased_copies E_large wav_a chunks_dir false 12001 st0 1
           respuesta_hola [seg_hola] 0 seg_hola).
  - right. by vm_compute.
  - reflexivity.
  - by vm_compute.
  - by vm_compute.
  - reflexivity.
  - reflexivity.
  - reflexivity.
  - reflexivity.
Defined.

(** The second chunk of the 60 MB unit starts at 4 s: its segment
    0.5-1.5 s is object 2, untouched, and the combined result holds
    object 3 with 4.5-5.5 s. *)
Example large_unit_second_chunk :
  ∃ res st',
    _transcribir_wav_con_chunking_opcional E_large wav_a chunks_dir false st0
    = (Some (Some res), st') ∧
    r_segments res = Some [1; 3; 5]%nat ∧
    heap st' !! 2%nat = Some seg_hola ∧
    heap st' !! 3%nat
    = Some {| seg_start := Some 4.5%float; seg_end := Some 5.5%float;
              seg_text := lit " hola" |}.
Proof. eexists _, _. split_and!; by vm_compute. Qed.

(* ================================================================== *)
(** * The aggregator *)

(** Whatever the path, the transcriber returns, only adds objects and
    events, and writes no transcript. *)
Lemma transcribir_total (E : Env) (ruta dir : Path) (forzar_chunking : bool)
    (h : list Segment) (lg : list Event) :
  ∃ (res : option Resultado) (H : list Segment) (L : list Event),
    _transcribir_wav_con_chunking_opcional E ruta dir forzar_chunking
      (mkState h lg)
    = (Some res, mkState (h ++ H) (lg ++ L)) ∧
    writes L = [].
Proof.
  destruct (decide (negb forzar_chunking
                    && (st_size E ruta <=? WHISPER_API_LIMIT_BYTES) = true))
    as [Hd|Hd].
  - apply andb_true_iff in Hd as [Hf Hle].
    apply negb_true_iff in Hf as ->. apply Z.leb_le in Hle.
    rewrite direct_run, whisper_run by done. by eexists _, _, _.
  - assert (Hc : chunked E ruta forzar_chunking).
    { unfold chunked. destruct forzar_chunking; [by left|right].
      simpl in Hd. apply not_true_is_false in Hd. by apply Z.leb_gt in Hd. }
    destruct (chunked_run_cases E ruta dir forzar_chunking h lg Hc)
      as [-> | (total & _ & _ & ->)].
    + exists None, [], []. by rewrite !app_nil_r.
    + set (n := num_chunks_of (st_size E ruta)).
      pose proof (loop_writes E ruta dir n (chunk_duration_of total n) total
                    (seqZ 0 n) acc0 (length h)) as Hwr.
      destruct (loop_effect _ _ _ _ _ _ _ _ _) as [[acc H] L].
      by eexists _, H, L.
Qed.

Lemma has_text_Some (resultado : option Resultado) (tx : str) :
  has_text resultado = Some tx →
  ∃ r, resultado = Some r ∧ r_text r = Some tx ∧ tx ≠ [].
Proof.
  unfold has_text. destruct resultado as [r|]; [|done].
  destruct (r_text r) as [t|] eqn:Hr; [|done].
  destruct t as [|c t]; [done|]. simpl. intros [= <-]. by exists r.
Qed.

(** The line of a turn: ["{speaker}: {texto_transcrito}\n"]. *)
Definition linea (t : Turn) (texto_transcrito : str) : str :=
  speaker t ++ lit ": " ++ texto_transcrito ++ nl.

(** The WAV of turn [i]. *)
Definition ruta_turno (dir_temporal_base ruta_wav : Path) (i : Z) : Path :=
  join_path (join_path dir_temporal_base (lit "turn_chunks"))
    (stem ruta_wav ++ lit "_turn_" ++ of_int (i + 1) ++ lit ".wav").

(** What one turn can do: raise on a bound that is not finite; or pass,
    with the text as it was; or add one line, whose text is the non-empty
    text of the result that the transcriber returned for the turn's WAV. *)
Lemma procesar_turno_cases (E : Env) (base ruta_wav : Path) (texto : str)
    (i : Z) (t : Turn) (st : State) (o : option str) (st' : State) :
  procesar_turno E base ruta_wav texto (i, t) st = (o, st') →
  (o = None ∧ st' = st ∧ turn_ms t = None) ∨
  ∃ L : list Event,
    log st' = log st ++ L ∧ writes L = [] ∧
    (o = Some texto ∨
     ∃ (st1 st2 : State) (r : Resultado) (tx : str),
       _transcribir_wav_con_chunking_opcional E (ruta_turno base ruta_wav i)
         (join_path base (lit "turn_subchunks")) false st1
       = (Some (Some r), st2) ∧
       r_text r = Some tx ∧ tx ≠ [] ∧
       o = Some (texto ++ linea t tx)).
Proof.
  unfold procesar_turno. destruct st as [h lg].
  destruct (turn_ms t) as [[start_ms end_ms]|]; [|intros [= <- <-]; by left].
  intros Hrun. right.
  destruct (end_ms - start_ms <? 100).
  { injection Hrun as <- <-. exists []. rewrite app_nil_r. auto. }
  emit_step in Hrun.
  destruct (slice_ok E _ _ _); cbn [negb] in Hrun.
  2:{ injection Hrun as <- <-. eexists. split; [done|]. auto. }
  destruct (export_ok E _ _); cbn [negb] in Hrun.
  2:{ unfold bind, emit, ret in Hrun. cbn [heap log] in Hrun.
      injection Hrun as <- <-. eexists. rewrite <- app_assoc.
      split; [done|]. auto. }
  emit_step in Hrun. unfold bind at 1 in Hrun.
  destruct (transcribir_total E (ruta_turno base ruta_wav i)
              (join_path base (lit "turn_subchunks")) false h
              ((lg ++ [EvSlice (FromWav ruta_wav) start_ms end_ms])
               ++ [EvExport (Slice (FromWav ruta_wav) start_ms end_ms)
                     (ruta_turno base ruta_wav i) true]))
    as (res & H & L & Htr & Hwr).
  unfold ruta_turno in Htr. rewrite Htr in Hrun.
  unfold bind, emit, ret in Hrun. cbn [heap log] in Hrun.
  injection Hrun as <- <-. cbn [log].
  exists ([EvSlice (FromWav ruta_wav) start_ms end_ms;
           EvExport (Slice (FromWav ruta_wav) start_ms end_ms)
             (ruta_turno base ruta_wav i) true]
          ++ L ++ [EvUnlink (ruta_turno base ruta_wav i)]).
  split; [by rewrite <- !app_assoc|].
  split; [by rewrite !writes_app, Hwr|].
  destruct (has_text res) as [tx|] eqn:Htx; [right|by left].
  apply has_text_Some in Htx as (r & -> & Hr & Hne).
  by eexists _, _, r, tx.
Qed.

(** The transcriber returned, for the WAV of turn [i], a result whose text
    is the non-empty [tx]. *)
Definition transcribed (E : Env) (base ruta_wav : Path) (i : Z) (tx : str) : Prop :=
  tx ≠ [] ∧
  ∃ (st1 st2 : State) (r : Resultado),
    _transcribir_wav_con_chunking_opcional E (ruta_turno base ruta_wav i)
      (join_path base (lit "turn_subchunks")) false st1
    = (Some (Some r), st2) ∧
    r_text r = Some tx.

(** The loop over the turns: the text grows by the lines of some of the
    turns, in the order of the turns, each with the non-empty text that
    the transcriber returned for it; and no transcript is written
    meanwhile. *)
Lemma turnos_run (E : Env) (base ruta_wav : Path) (its : list (Z * Turn)) :
  ∀ (texto : str) (st : State) (texto' : str) (st' : State),
    for_each its (procesar_turno E base ruta_wav) texto st = (Some texto', st') →
    ∃ (kept : list (Z * Turn * str)) (L : list Event),
      kept.*1 `sublist_of` its ∧
      Forall (λ k, transcribed E base ruta_wav k.1.1 k.2) kept ∧
      texto' = texto ++ concat ((λ k, linea k.1.2 k.2) <$> kept) ∧
      log st' = log st ++ L ∧ writes L = [].
Proof.
  induction its as [|[i t] its IH]; intros texto st texto' st' Hrun.
  - injection Hrun as <- <-. exists [], []. by rewrite !app_nil_r.
  - cbn [for_each] in Hrun. unfold bind in Hrun.
    destruct (procesar_turno E base ruta_wav texto (i, t) st)
      as [[texto1|] st1] eqn:Hstep; [|done].
    apply procesar_turno_cases in Hstep
      as [(? & _) | (L1 & Hlog1 & Hwr1 & Hcase)]; [done|].
    apply IH in Hrun as (kept & L2 & Hsub & Hne & -> & Hlog2 & Hwr2).
    destruct Hcase as [[= <-] | (s1 & s2 & r & tx & Htr & Hr & Htx & [= ->])].
    + exists kept, (L1 ++ L2). split_and!; [by apply sublist_cons | done..| |].
      * by rewrite Hlog2, Hlog1, app_assoc.
      * by rewrite writes_app, Hwr1, Hwr2.
    + exists ((i, t, tx) :: kept), (L1 ++ L2).
      split_and!.
      * by apply sublist_skip.
      * constructor; [|done]. split; [done|]. by exists s1, s2, r.
      * cbn. by rewrite <- !app_assoc.
      * by rewrite Hlog2, Hlog1, app_assoc.
      * by rewrite writes_app, Hwr1, Hwr2.
Qed.

Lemma guardar_run (E : Env) (texto : str) (base : Path)
    (h : list Segment) (lg : list Event) :
  guardar_transcripcion E texto base (mkState h lg)
  = (Some tt,
     mkState h (lg ++ [EvWrite (with_suffix base (lit ".diarized.txt"))
                         (encode_latin1_ignore texto)])).
Proof. reflexivity. Qed.

(* ------------------------------------------------------------------ *)
(** ** C6: short turns *)

Lemma for_each_app {A X} (body : A → X → M A) (xs ys : list X) :
  ∀ (acc : A) (st : State),
    for_each (xs ++ ys) body acc st
    = (acc' <- for_each xs body acc ;; for_each ys body acc') st.
Proof.
  induction xs as [|x xs IH]; intros acc st; [done|].
  cbn [app for_each]. unfold bind at 1 2 3.
  destruct (body acc x st) as [[acc1|] st1]; [|done].
  rewrite IH. reflexivity.
Qed.

(** C6, as the code has it.  A turn whose duration in whole milliseconds,
    as the loop measures it ([int(end * 1000) - int(start * 1000)]), is
    below 100 is passed over before anything is done for it: the state is
    left as it was (no slice, no export, no request) and the text is left
    as it was (no line).  So the loop over the turns ends with the same
    text and the same state as the loop over the other turns alone. *)
Theorem C6_short_turn_skipped (E : Env) (base ruta_wav : Path) (texto : str)
    (i : Z) (t : Turn) (st : State) (start_ms end_ms : Z) :
  turn_ms t = Some (start_ms, end_ms) →
  end_ms - start_ms < 100 →
  procesar_turno E base ruta_wav texto (i, t) st = (Some texto, st) ∧
  ∀ (before after : list (Z * Turn)),
    for_each (before ++ (i, t) :: after) (procesar_turno E base ruta_wav) texto st
    = for_each (before ++ after) (procesar_turno E base ruta_wav) texto st.
Proof.
  intros Hms Hshort.
  assert (Hskip : ∀ texto1 st1,
             procesar_turno E base ruta_wav texto1 (i, t) st1 = (Some texto1, st1)).
  { intros texto1 st1. unfold procesar_turno. rewrite Hms.
    by destruct (Z.ltb_spec (end_ms - start_ms) 100); [|lia]. }
  split; [apply Hskip|].
  intros before after. rewrite !for_each_app. unfold bind at 1 2.
  destruct (for_each before _ texto st) as [[texto1|] st1]; [|done].
  cbn [for_each]. unfold bind at 1. by rewrite Hskip.
Qed.

(** The 50 ms turn of speaker B, from 5 s to 5.05 s (the binary64 value
    nearest to 5.05, written in hexadecimal). *)
Definition turno_B : Turn :=
  {| turn_start := 5%float; turn_end := 0x1.4333333333333p+2%float;
     speaker := lit "B" |}.

Lemma C6_witness :
  procesar_turno E_small tmp wav_a (lit "A: hola") (1, turno_B) st0
  = (Some (lit "A: hola"), st0) ∧
  ∀ (before after : list (Z * Turn)),
    for_each (before ++ (1, turno_B) :: after)
      (procesar_turno E_small tmp wav_a) (lit "A: hola") st0
    = for_each (before ++ after)
        (procesar_turno E_small tmp wav_a) (lit "A: hola") st0.
Proof.
  apply (C6_short_turn_skipped E_small tmp wav_a (lit "A: hola") 1 turno_B st0
           5000 5050).
  - by vm_compute.
  - lia.
Defined.

(** A turn from 1/1024 s to 103/1024 s: it lasts 102/1024 s, that is
    99.609375 ms. *)
Definition turno_99ms : Turn :=
  {| turn_start := 0.0009765625%float; turn_end := 0.1005859375%float;
     speaker := lit "A" |}.

(** The exact duration of a turn, in seconds. *)
Definition turn_duration_s (t : Turn) : Q :=
  PyFloat.to_Q (turn_end t) - PyFloat.to_Q (turn_start t).

(** C6 as stated fails.  The turn above is shorter than 100 ms, but its
    bounds truncate to 0 ms and 100 ms, so the loop measures 100 ms: the
    turn is sliced, exported, sent to the service, and gets its line. *)
Lemma C6_counterexample :
  (turn_duration_s turno_99ms < 100 # 1000)%Q ∧
  turn_ms turno_99ms = Some (0, 100) ∧
  ∃ st',
    procesar_turno E_small tmp wav_a [] (0, turno_99ms) st0
    = (Some (lit "A: hola" ++ nl), st') ∧
    slices (log st') = [(0, 100)] ∧
    requests (log st') = [ruta_turno tmp wav_a 0].
Proof.
  split; [by vm_compute|]. split; [by vm_compute|].
  eexists. split_and!; by vm_compute.
Qed.

(* ------------------------------------------------------------------ *)
(** ** C10: the lines of a diarized transcript *)

(** C10. On the diarized path the final text is the concatenation of
    lines ["{speaker}: {text}\n"], one for some of the turns, in the order
    of the turns, where [text] is not empty and is the text of the result
    that the transcriber returned for the WAV of that turn.  And a turn
    adds a line to the text only in that case: processing one turn either
    leaves the text as it was, or appends such a line for a result that
    exists and whose text is not empty (a result with an empty text adds
    nothing, like no result). *)
Theorem C10_lines_have_text (E : Env) (base ruta_wav : Path)
    (turnos : list Turn) (st : State) (texto : str) (st' : State) :
  for_each (enumerate turnos) (procesar_turno E base ruta_wav) [] st
  = (Some texto, st') →
  (∃ kept : list (Z * Turn * str),
     kept.*1 `sublist_of` enumerate turnos ∧
     Forall (λ k, transcribed E base ruta_wav k.1.1 k.2) kept ∧
     texto = concat ((λ k, speaker k.1.2 ++ lit ": " ++ k.2 ++ nl) <$> kept)) ∧
  (∀ (texto0 : str) (i : Z) (t : Turn) (s s' : State) (texto1 : str),
     procesar_turno E base ruta_wav texto0 (i, t) s = (Some texto1, s') →
     texto1 = texto0 ∨
     ∃ tx, transcribed E base ruta_wav i tx ∧
           texto1 = texto0 ++ (speaker t ++ lit ": " ++ tx ++ nl)).
Proof.
  intros Hrun. split.
  - apply turnos_run in Hrun as (kept & L & Hsub & Hall & -> & _).
    by exists kept.
  - intros texto0 i t s s' texto1 Hstep.
    apply procesar_turno_cases in Hstep as [(? & _) | (L & _ & _ & Hcase)];
      [done|].
    destruct Hcase as [[= <-] | (s1 & s2 & r & tx & Htr & Hr & Htx & [= ->])];
      [by left|right].
    exists tx. split; [|done]. split; [done|]. by exists s1, s2, r.
Qed.

(** The turns of the scenario: A from 0 to 5 s, B from 5 to 5.05 s, C from
    6 to 40 s. *)
Definition turno_A : Turn :=
  {| turn_start := 0%float; turn_end := 5%float; speaker := lit "A" |}.
Definition turno_C : Turn :=
  {| turn_start := 6%float; turn_end := 40%float; speaker := lit "C" |}.

Definition E_turnos : Env :=
  world 320044 40000 (λ _, Some respuesta_hola)
    (Some [turno_A; turno_B; turno_C]).

(** The run of the scenario: B is dropped, A and C give one line each. *)
Lemma scenario_run :
  ∃ st', for_each (enumerate [turno_A; turno_B; turno_C])
           (procesar_turno E_turnos tmp wav_a) [] st0
         = (Some (lit "A: hola" ++ nl ++ lit "C: hola" ++ nl), st') ∧
         slices (log st') = [(0, 5000); (6000, 40000)] ∧
         requests (log st') = [ruta_turno tmp wav_a 0; ruta_turno tmp wav_a 2].
Proof. eexists. split_and!; by vm_compute. Qed.

Lemma C10_witness :
  (∃ kept : list (Z * Turn * str),
     kept.*1 `sublist_of` enumerate [turno_A; turno_B; turno_C] ∧
     Forall (λ k, transcribed E_turnos tmp wav_a k.1.1 k.2) kept ∧
     lit "A: hola" ++ nl ++ lit "C: hola" ++ nl
     = concat ((λ k, speaker k.1.2 ++ lit ": " ++ k.2 ++ nl) <$> kept)) ∧
  (∀ (texto0 : str) (i : Z) (t : Turn) (s s' : State) (texto1 : str),
     procesar_turno E_turnos tmp wav_a texto0 (i, t) s = (Some texto1, s') →
     texto1 = texto0 ∨
     ∃ tx, transcribed E_turnos tmp wav_a i tx ∧
           texto1 = texto0 ++ (speaker t ++ lit ": " ++ tx ++ nl)).
Proof.
  eapply (C10_lines_have_text E_turnos tmp wav_a [turno_A; turno_B; turno_C] st0).
  by vm_compute.
Defined.

(* ------------------------------------------------------------------ *)
(** ** C7: no line, no file *)

(** C7. When the file was converted and loaded, diarization gave turns,
    and the loop over them ends with the empty text (no turn gave a line),
    the processing of the file ends there: nothing is written, neither a
    transcript nor the error line of the whole-file path. *)
Theorem C7_no_lines_no_file (E : Env) (dir_salida base ruta_audio ruta_wav : Path)
    (d : Z) (turnos : list Turn) (st st1 : State) :
  convertir_a_wav E ruta_audio (join_path base (lit "wav")) = Some ruta_wav →
  from_wav E ruta_wav = Some d →
  diarizar_audio E ruta_wav = Some turnos →
  for_each (enumerate turnos) (procesar_turno E base ruta_wav) [] st
  = (Some [], st1) →
  procesar_archivo E dir_salida base ruta_audio st = (Some tt, st1) ∧
  ∃ L, log st1 = log st ++ L ∧ writes L = [].
Proof.
  intros Hconv Hw Hdi Hloop. unfold procesar_archivo.
  rewrite Hconv, Hw, Hdi. unfold bind. rewrite Hloop. split; [done|].
  apply turnos_run in Hloop as (_ & L & _ & _ & _ & Hlog & Hwr). by exists L.
Qed.

Definition out_dir : Path := mkPath [] (lit "text").
Definition audio_a : Path := mkPath [lit "audio"] (lit "a.mp3").

(** A world with two turns where the service is down. *)
Definition E_turnos_down : Env :=
  world 320044 40000 (λ _, None) (Some [turno_A; turno_C]).

Lemma C7_witness :
  ∃ st1,
    procesar_archivo E_turnos_down out_dir tmp audio_a st0 = (Some tt, st1) ∧
    ∃ L, log st1 = log st0 ++ L ∧ writes L = [].
Proof.
  eexists.
  eapply (C7_no_lines_no_file E_turnos_down out_dir tmp audio_a wav_a 40000
            [turno_A; turno_C] st0).
  - reflexivity.
  - reflexivity.
  - reflexivity.
  - vm_compute. reflexivity.
Defined.

(** In that world both turns are sent and both fail. *)
Example turnos_down_run :
  ∃ st1,
    procesar_archivo E_turnos_down out_dir tmp audio_a st0 = (Some tt, st1) ∧
    requests (log st1) = [ruta_turno tmp wav_a 0; ruta_turno tmp wav_a 1] ∧
    dispatched (log st1) = [] ∧ writes (log st1) = [].
Proof. eexists. split_and!; by vm_compute. Qed.

(* ------------------------------------------------------------------ *)
(** ** C8: the whole-file path *)

(** The output file of an input file. *)
Definition ruta_salida_de (dir_salida ruta_audio : Path) : Path :=
  with_suffix (join_path dir_salida (stem ruta_audio)) (lit ".diarized.txt").

(** The one line of the whole-file path. *)
Definition linea_sin_hablantes (resultado : option Resultado) : str :=
  match has_text resultado with
  | Some text => lit "SPEAKER_?: " ++ text ++ nl
  | None => error_placeholder
  end.



(** The 60 MB file without diarization: three chunks, one line. *)
Example large_file_without_speakers :
  ∃ st',
    procesar_archivo E_large out_dir tmp audio_a st0 = (Some tt, st') ∧
    writes (log st')
    = [(mkPath [lit "text"] (lit "a.diarized.txt"),
        lit "SPEAKER_?: hola hola hola" ++ nl)].
Proof. eexists. split; by vm_compute. Qed.

(** The same file when the service is down: the error line. *)
Example large_file_service_down :
  ∃ st',
    procesar_archivo E_down out_dir tmp audio_a st0 = (Some tt, st') ∧
    writes (log st')
    = [(mkPath [lit "text"] (lit "a.diarized.txt"),
        encode_latin1_ignore error_placeholder)] ∧
    encode_latin1_ignore error_placeholder = error_placeholder.
Proof. eexists. split_and!; by vm_compute. Qed.

(* ------------------------------------------------------------------ *)
(** ** C9: the output file *)

(** A file is written at most once per input file, and exactly once when
    the final text is not empty: the events of [procesar_archivo] hold no
    write, or the single write of the final text to the output file. *)
Lemma procesar_archivo_writes (E : Env) (dir_salida base ruta_audio : Path)
    (st st' : State) :
  procesar_archivo E dir_salida base ruta_audio st = (Some tt, st') →
  ∃ L, log st' = log st ++ L ∧
       (writes L = [] ∨
        ∃ texto, texto ≠ [] ∧
                 writes L = [(ruta_salida_de dir_salida ruta_audio,
                              encode_latin1_ignore texto)]).
Proof.
  unfold procesar_archivo. destruct st as [h lg].
  destruct (convertir_a_wav E ruta_audio _) as [ruta_wav|];
    [|intros [= <-]; exists []; rewrite app_nil_r; auto].
  destruct (from_wav E ruta_wav) as [d|];
    [|intros [= <-]; exists []; rewrite app_nil_r; auto].
  unfold bind at 1.
  destruct (diarizar_audio E ruta_wav) as [turnos|].
  - destruct (for_each _ _ _ _) as [[texto|] st1] eqn:Hloop; [|done].
    apply turnos_run in Hloop as (_ & L & _ & _ & _ & Hlog & Hwr).
    destruct st1 as [h1 lg1]. cbn [log] in Hlog. subst lg1.
    destruct texto as [|c cs]; cbn [truthy].
    + intros [= <-]. exists L. auto.
    + rewrite guardar_run. intros [= <-]. eexists. cbn [log].
      rewrite <- app_assoc. split; [done|]. right. eexists. split; [|
        by rewrite writes_app, Hwr]. done.
  - unfold transcribir_sin_hablantes, bind at 1.
    destruct (transcribir_total E ruta_wav (join_path base (lit "chunks_full"))
                true h lg) as (res & H & L & Htr & Hwr).
    rewrite Htr.
    destruct (has_text res) as [text|]; unfold ret.
    + destruct (lit "SPEAKER_?: " ++ text ++ nl) as [|c cs] eqn:Hl; [done|].
      cbn [truthy]. rewrite guardar_run. intros [= <-]. eexists. cbn [log].
      rewrite <- app_assoc. split; [done|]. right. eexists. split; [|
        by rewrite writes_app, Hwr]. done.
    + change (truthy error_placeholder) with true. cbv iota.
      rewrite guardar_run. intros [= <-].
      eexists. cbn [log]. rewrite <- app_assoc. split; [done|]. right.
      eexists. split; [|by rewrite writes_app, Hwr]. done.
Qed.

(** The lossy encoding never fails, gives bytes only, and is the strict
    encoding whenever that one succeeds. *)
Lemma encode_latin1_ignore_bytes (s : str) :
  Forall (λ c, (c < 256)%N) (encode_latin1_ignore s).
Proof.
  apply Forall_forall. intros c Hc.
  by apply list_elem_of_filter in Hc as [Hc _].
Qed.

Lemma encode_latin1_ignore_strict (s : str) (bs : list N) :
  encode_latin1_strict s = Some bs → encode_latin1_ignore s = bs.
Proof.
  unfold encode_latin1_strict, encode_latin1_ignore.
  destruct (forallb _ s) eqn:Hall; [|done]. intros [= <-].
  induction s as [|c s IH]; [done|].
  simpl in Hall. apply andb_true_iff in Hall as [Hc Hall].
  apply N.ltb_lt in Hc. unfold str in *. rewrite filter_cons.
  case_decide; [|done]. by rewrite IH.
Qed.

(** "año 🙂": the emoji has no byte and is dropped. *)
Example encode_drops_emoji :
  encode_latin1_ignore (lit "a" ++ [241%N] ++ lit "o " ++ [128578%N])
  = lit "a" ++ [241%N] ++ lit "o " ∧
  encode_latin1_strict (lit "a" ++ [241%N] ++ lit "o " ++ [128578%N]) = None.
Proof. split; by vm_compute. Qed.




Definition audio_a_b : Path := mkPath [lit "audio"] (lit "a.b.mp3").

(** C9 fails on the code for an input whose stem holds a dot.  The stem of
    "a.b.mp3" is "a.b"; [guardar_transcripcion] gets the base "text/a.b"
    and applies [with_suffix], which takes ".b" for a suffix and replaces
    it.  The transcript is written, once, with the lossy encoding, but to
    "a.diarized.txt" and not to "a.b.diarized.txt". *)
Theorem C9_dotted_stem_output :
  ∃ st',
    procesar_archivo E_small out_dir tmp audio_a_b st0 = (Some tt, st') ∧
    stem audio_a_b = lit "a.b" ∧
    writes (log st')
    = [(mkPath [lit "text"] (lit "a.diarized.txt"),
        encode_latin1_ignore (lit "SPEAKER_?: hola" ++ nl))] ∧
    name (ruta_salida_de out_dir audio_a_b)
    ≠ stem audio_a_b ++ lit ".diarized.txt".
Proof. eexists. split_and!; by vm_compute. Qed.

(** Two inputs that differ in the stem get the same output file: the
    second transcript replaces the first. *)
Example dotted_stems_collide :
  ruta_salida_de out_dir (mkPath [lit "audio"] (lit "a.1.mp3"))
  = ruta_salida_de out_dir (mkPath [lit "audio"] (lit "a.2.mp3")).
Proof. by vm_compute. Qed.

(** [convertir_a_wav] builds its name by concatenation and keeps the whole
    stem. *)
Example convertir_keeps_stem :
  name <$> convertir_a_wav E_small audio_a_b (join_path tmp (lit "wav"))
  = Some (lit "a.b.wav").
Proof. by vm_compute. Qed.

(* ================================================================== *)
(** * Further properties of the code *)

(** ** Answers that carry every field

    The [.get] defaults of lines 173-180 serve a dictionary that lacks a
    key, and that is how a field [None] of an answer is read above.  The
    dictionary that [respuesta.dict()] builds for a verbose transcription
    holds ['text'], ['language'] and ['segments'], and each segment its
    ['start'] and ['end']: no default is ever taken.  The properties below
    that depend on what an answer holds are stated for a service whose
    answers carry every field. *)

Definition has_value {A} (o : option A) : bool :=
  match o with Some _ => true | None => false end.

Definition segmento_completo (s : Segment) : bool :=
  has_value (seg_start s) && has_value (seg_end s).

Definition respuesta_completa (a : ApiRespuesta) : bool :=
  has_value (api_text a) && has_value (api_language a)
  && match api_segments a with
     | Some ss => forallb segmento_completo ss
     | None => false
     end.

Definition servicio_completo (E : Env) : Prop :=
  ∀ (p : Path) (a : ApiRespuesta),
    api_transcribe E p = Some a → respuesta_completa a = true.

(** The same, of a result dictionary. *)
Definition resultado_completo (r : Resultado) : bool :=
  has_value (r_text r) && has_value (r_language r) && has_value (r_segments r).

Lemma whisper_dispatched_complete (E : Env) (p : Path) (h : nat) :
  servicio_completo E →
  Forall (λ r, resultado_completo r = true)
    (dispatched [EvWhisper p (whisper_result E p h)]).
Proof.
  intros HE. unfold whisper_result.
  destruct (api_transcribe E p) as [a|] eqn:Ha; cbn; [|constructor].
  apply HE in Ha. unfold respuesta_completa in Ha.
  apply andb_true_iff in Ha as [Ha Hs]. apply andb_true_iff in Ha as [Ht Hl].
  repeat constructor. unfold resultado_completo. cbn.
  rewrite Ht, Hl. by destruct (api_segments a).
Qed.

Lemma step_dispatched_complete (E : Env) (ruta dir : Path) (n cd total : Z)
    (acc : Acc) (i : Z) (h : nat) :
  servicio_completo E →
  Forall (λ r, resultado_completo r = true)
    (dispatched (step_effect E ruta dir n cd total acc i h).2).
Proof.
  intros HE. unfold step_effect.
  destruct (chunk_bounds n cd total i) as [s e].
  destruct (e <=? s); [constructor|].
  destruct (export_ok E _ _); [|constructor].
  cbn [fst snd].
  by apply (whisper_dispatched_complete E (chunk_filename ruta dir i)).
Qed.

Lemma loop_dispatched_complete (E : Env) (ruta dir : Path) (n cd total : Z)
    (ixs : list Z) :
  servicio_completo E →
  ∀ (acc : Acc) (h : nat),
    Forall (λ r, resultado_completo r = true)
      (dispatched (loop_effect E ruta dir n cd total ixs acc h).2).
Proof.
  intros HE. induction ixs as [|i ixs IH]; intros acc h; cbn [loop_effect].
  { constructor. }
  pose proof (step_dispatched_complete E ruta dir n cd total acc i h HE) as Hs.
  destruct (step_effect E ruta dir n cd total acc i h) as [[acc1 H1] L1].
  specialize (IH acc1 (h + length H1)%nat).
  destruct (loop_effect E ruta dir n cd total ixs acc1 (h + length H1)%nat)
    as [[acc2 H2] L2].
  cbn [snd] in *. rewrite dispatched_app. by apply Forall_app.
Qed.

(** ** The number of chunks (lines 136-138) *)

(** The number of chunks is the least that lets an even split by bytes keep
    every chunk within the limit: [num_chunks] limits hold the file, and
    for a file over the limit one limit fewer would not.  A file within
    the limit gets one chunk. *)
Theorem num_chunks_fits (file_size : Z) :
  let n := num_chunks_of file_size in
  1 <= n ∧
  file_size <= n * WHISPER_API_LIMIT_BYTES ∧
  (WHISPER_API_LIMIT_BYTES < file_size →
   (n - 1) * WHISPER_API_LIMIT_BYTES < file_size) ∧
  (file_size <= WHISPER_API_LIMIT_BYTES → n = 1).
Proof.
  cbn zeta. unfold num_chunks_of, ceil_div, WHISPER_API_LIMIT_BYTES.
  pose proof (Z.div_mod (- file_size) (24 * 1024 * 1024) ltac:(lia)).
  pose proof (Z.mod_pos_bound (- file_size) (24 * 1024 * 1024) ltac:(lia)).
  destruct (Z.ltb_spec (24 * 1024 * 1024) file_size); lia.
Qed.

(** ** The text of a chunked unit has no white space at its ends
       (line 195) *)

Lemma lstrip_head (s : str) (c : N) :
  head (lstrip s) = Some c → isspace c = false.
Proof.
  induction s as [|a s IH]; simpl; [done|].
  destruct (isspace a) eqn:Ha; [done|]. by intros [= <-].
Qed.

Lemma lstrip_suffix (s : str) : lstrip s `suffix_of` s.
Proof.
  induction s as [|a s IH]; simpl; [done|].
  destruct (isspace a); [by apply suffix_cons_r|done].
Qed.

Lemma rstrip_last (s : str) (c : N) :
  last (rstrip s) = Some c → isspace c = false.
Proof. unfold rstrip. rewrite last_reverse. apply lstrip_head. Qed.

Lemma strip_clean (s : str) (c : N) :
  head (strip s) = Some c ∨ last (strip s) = Some c → isspace c = false.
Proof.
  intros [Hh|Hl]; [by eapply lstrip_head|].
  unfold strip in Hl. destruct (lstrip_suffix (rstrip s)) as [k Hk].
  apply (rstrip_last s). by rewrite Hk, last_app, Hl.
Qed.

(** On the chunked path, with a service whose answers carry every field,
    every dictionary that a request returned holds its three keys (no
    default of a [.get] is taken), and a result has a text, which neither
    starts nor ends with a white-space character, whatever the texts of
    the chunks; it is the empty text exactly when the texts of the chunks
    hold nothing but white space. *)
Theorem chunked_text_trimmed (E : Env) (ruta dir : Path)
    (forzar_chunking : bool) (st : State) :
  servicio_completo E →
  chunked E ruta forzar_chunking →
  ∃ (res : option Resultado) (st' : State) (L : list Event),
    _transcribir_wav_con_chunking_opcional E ruta dir forzar_chunking st
    = (Some res, st') ∧
    log st' = log st ++ L ∧
    Forall (λ r, resultado_completo r = true) (dispatched L) ∧
    ∀ r : Resultado, res = Some r →
      ∃ t : str,
        r_text r = Some t ∧
        (∀ c, head t = Some c ∨ last t = Some c → isspace c = false) ∧
        (t = [] ↔ Forall blank (dispatched_texts L)).
Proof.
  intros HE Hc. destruct st as [h lg].
  destruct (chunked_run_cases E ruta dir forzar_chunking h lg Hc)
    as [-> | (total & _ & _ & ->)].
  - exists None, (mkState h lg), []. rewrite app_nil_r.
    split_and!; [done..|apply Forall_nil_2|done].
  - set (n := num_chunks_of (st_size E ruta)).
    pose proof (loop_text E ruta dir n (chunk_duration_of total n) total
                  (seqZ 0 n) acc0 (length h)) as Ht.
    pose proof (loop_dispatched_complete E ruta dir n
                  (chunk_duration_of total n) total (seqZ 0 n) HE acc0
                  (length h)) as Hall.
    destruct (loop_effect _ _ _ _ _ _ _ _ _) as [[acc H] L].
    cbn [fst snd] in Ht, Hall. cbn [all_text acc0 app] in Ht.
    eexists _, _, L. split_and!; [done..|]. intros r Hr.
    unfold combined_result in Hr. destruct (truthy (all_text acc)); [|done].
    injection Hr as <-. eexists. split_and!; [done|apply strip_clean|].
    cbn [r_text]. rewrite Ht. split.
    + apply blank_of_strip_accumulated.
    + intros Hb. by apply strip_blank, accumulated_blank.
Qed.

(** A world whose service pads its texts with blanks. *)
Definition respuesta_padded : ApiRespuesta :=
  {| api_text := Some (lit "  hola "); api_language := Some (lit "es");
     api_segments := Some [seg_hola] |}.
Definition E_padded : Env := world 60000000 12001 (λ _, Some respuesta_padded) None.

Lemma chunked_text_trimmed_witness :
  ∃ (res : option Resultado) (st' : State) (L : list Event),
    _transcribir_wav_con_chunking_opcional E_padded wav_a chunks_dir false st0
    = (Some res, st') ∧
    log st' = log st0 ++ L ∧
    Forall (λ r, resultado_completo r = true) (dispatched L) ∧
    ∀ r : Resultado, res = Some r →
      ∃ t : str,
        r_text r = Some t ∧
        (∀ c, head t = Some c ∨ last t = Some c → isspace c = false) ∧
        (t = [] ↔ Forall blank (dispatched_texts L)).
Proof.
  apply (chunked_text_trimmed E_padded wav_a chunks_dir false st0).
  - by intros p a [= <-].
  - right. by vm_compute.
Defined.

(** There the three padded texts give "hola    hola    hola". *)
Example padded_run :
  ∃ r st',
    _transcribir_wav_con_chunking_opcional E_padded wav_a chunks_dir false st0
    = (Some (Some r), st') ∧
    dispatched_texts (log st')
    = [lit "  hola "; lit "  hola "; lit "  hola "] ∧
    r_text r = Some (lit "hola    hola    hola") ∧
    r_language r = Some (lit "es") ∧ r_segments r = Some [1; 3; 5]%nat.
Proof. eexists _, _. split_and!; by vm_compute. Qed.

(** ** The language of a chunked unit: the last one wins
       (lines 153, 174, 197) *)

(** The language after the results [rs], starting from [lang]. *)
Definition last_language (lang : str) (rs : list Resultado) : str :=
  foldl (λ l r, default l (r_language r)) lang rs.

Lemma step_language (E : Env) (ruta dir : Path) (n cd total : Z)
    (acc : Acc) (i : Z) (h : nat) :
  let out := step_effect E ruta dir n cd total acc i h in
  last_successful_lang out.1.1
  = last_language (last_successful_lang acc) (dispatched out.2).
Proof.
  cbn zeta. unfold step_effect.
  destruct (chunk_bounds n cd total i) as [s e].
  destruct (e <=? s); [done|]. destruct (export_ok E _ _); [|done].
  unfold whisper_result. cbn [fst snd].
  by destruct (api_transcribe E _).
Qed.

Lemma loop_language (E : Env) (ruta dir : Path) (n cd total : Z)
    (ixs : list Z) :
  ∀ (acc : Acc) (h : nat),
    let out := loop_effect E ruta dir n cd total ixs acc h in
    last_successful_lang out.1.1
    = last_language (last_successful_lang acc) (dispatched out.2).
Proof.
  induction ixs as [|i ixs IH]; intros acc h; cbn [loop_effect]; [done|].
  pose proof (step_language E ruta dir n cd total acc i h) as Hs.
  destruct (step_effect E ruta dir n cd total acc i h) as [[acc1 H1] L1].
  specialize (IH acc1 (h + length H1)%nat).
  destruct (loop_effect E ruta dir n cd total ixs acc1 (h + length H1)%nat)
    as [[acc2 H2] L2].
  cbn [fst snd] in *. rewrite IH, Hs, dispatched_app.
  unfold last_language. by rewrite foldl_app.
Qed.

Lemma last_language_last (lang : str) (rs : list Resultado)
    (r : Resultado) (l : str) :
  last rs = Some r → r_language r = Some l → last_language lang rs = l.
Proof.
  intros Hlast Hl. apply last_Some in Hlast as [rs' ->].
  unfold last_language. rewrite foldl_app. cbn [foldl]. by rewrite Hl.
Qed.

(** With a service whose answers carry every field, the language of the
    result of a chunked unit is the language of the last chunk whose
    request succeeded, whatever the languages of the chunks before and
    whatever fails after. *)
Theorem chunked_language_last_wins (E : Env) (ruta dir : Path)
    (forzar_chunking : bool) (st : State) :
  servicio_completo E →
  chunked E ruta forzar_chunking →
  ∃ (res : option Resultado) (st' : State) (L : list Event),
    _transcribir_wav_con_chunking_opcional E ruta dir forzar_chunking st
    = (Some res, st') ∧
    log st' = log st ++ L ∧
    ∀ r : Resultado, res = Some r →
      ∃ (ultimo : Resultado) (idioma : str),
        last (dispatched L) = Some ultimo ∧
        r_language ultimo = Some idioma ∧
        r_language r = Some idioma.
Proof.
  intros HE Hc. destruct st as [h lg].
  destruct (chunked_run_cases E ruta dir forzar_chunking h lg Hc)
    as [-> | (total & _ & _ & ->)].
  - exists None, (mkState h lg), []. by rewrite app_nil_r.
  - set (n := num_chunks_of (st_size E ruta)).
    pose proof (loop_language E ruta dir n (chunk_duration_of total n) total
                  (seqZ 0 n) acc0 (length h)) as Hl.
    pose proof (loop_text E ruta dir n (chunk_duration_of total n) total
                  (seqZ 0 n) acc0 (length h)) as Ht.
    pose proof (loop_dispatched_complete E ruta dir n
                  (chunk_duration_of total n) total (seqZ 0 n) HE acc0
                  (length h)) as Hall.
    destruct (loop_effect _ _ _ _ _ _ _ _ _) as [[acc H] L].
    cbn [fst snd] in Hl, Ht, Hall.
    cbn [last_successful_lang all_text acc0 app] in Hl, Ht.
    eexists _, _, L. split_and!; [done..|]. intros r Hr.
    unfold combined_result in Hr.
    destruct (all_text acc) as [|c cs] eqn:Hacc; [done|].
    cbn [truthy] in Hr. injection Hr as <-. cbn [r_language].
    assert (Hd : dispatched L ≠ []).
    { intros Hnil. apply accumulated_nil in Hnil. by rewrite Hnil in Ht. }
    destruct (last (dispatched L)) as [ultimo|] eqn:Hlast.
    2:{ by apply last_None in Hlast. }
    assert (Hu : resultado_completo ultimo = true).
    { eapply Forall_forall in Hall; [exact Hall|].
      by apply last_Some_elem_of. }
    unfold resultado_completo in Hu.
    destruct (r_language ultimo) as [idioma|] eqn:Hidioma.
    2:{ by rewrite andb_false_r in Hu. }
    exists ultimo, idioma. split_and!; [done..|].
    by rewrite Hl, (last_language_last _ _ ultimo idioma).
Qed.

(** A world whose first chunk is answered in Spanish and whose second in
    English, and whose service is down for the third. *)
Definition respuesta_en : ApiRespuesta :=
  {| api_text := Some (lit "hello"); api_language := Some (lit "en");
     api_segments := Some [] |}.
Definition E_idiomas : Env :=
  world 60000000 12001
    (λ p, if bool_decide (p = chunk_filename wav_a chunks_dir 0)
          then Some respuesta_hola
          else if bool_decide (p = chunk_filename wav_a chunks_dir 1)
               then Some respuesta_en else None)
    None.

Lemma chunked_language_last_wins_witness :
  ∃ (res : option Resultado) (st' : State) (L : list Event),
    _transcribir_wav_con_chunking_opcional E_idiomas wav_a chunks_dir false st0
    = (Some res, st') ∧
    log st' = log st0 ++ L ∧
    ∀ r : Resultado, res = Some r →
      ∃ (ultimo : Resultado) (idioma : str),
        last (dispatched L) = Some ultimo ∧
        r_language ultimo = Some idioma ∧
        r_language r = Some idioma.
Proof.
  apply (chunked_language_last_wins E_idiomas wav_a chunks_dir false st0).
  - intros p a Ha. cbn in Ha. repeat case_bool_decide; by simplify_eq.
  - right. by vm_compute.
Defined.

(** There the answers are in "es", in "en", and none: the unit is in
    "en". *)
Example idiomas_run :
  ∃ r st',
    _transcribir_wav_con_chunking_opcional E_idiomas wav_a chunks_dir false st0
    = (Some (Some r), st') ∧
    length (requests (log st')) = 3%nat ∧
    r_language <$> dispatched (log st')
    = [Some (lit "es"); Some (lit "en")] ∧
    r_language r = Some (lit "en") ∧ r_text r = Some (lit "hola hello").
Proof. eexists _, _. split_and!; by vm_compute. Qed.

(** ** The temporary files of the chunks (lines 161-188) *)

(** The files of the exports that worked, of the exports that failed, and
    the files deleted. *)
Definition exports_ok (L : list Event) : list Path :=
  omap (λ ev, match ev with EvExport _ p true => Some p | _ => None end) L.
Definition exports_failed (L : list Event) : list Path :=
  omap (λ ev, match ev with EvExport _ p false => Some p | _ => None end) L.
Definition unlinks (L : list Event) : list Path :=
  omap (λ ev, match ev with EvUnlink p => Some p | _ => None end) L.

Lemma exports_ok_app (L1 L2 : list Event) :
  exports_ok (L1 ++ L2) = exports_ok L1 ++ exports_ok L2.
Proof. apply omap_app. Qed.

Lemma exports_failed_app (L1 L2 : list Event) :
  exports_failed (L1 ++ L2) = exports_failed L1 ++ exports_failed L2.
Proof. apply omap_app. Qed.

Lemma unlinks_app (L1 L2 : list Event) :
  unlinks (L1 ++ L2) = unlinks L1 ++ unlinks L2.
Proof. apply omap_app. Qed.


(** What the loop over the chunks [ixs] does with files. *)
Record chunk_files_ok (ruta dir : Path) (ixs : list Z) (L : list Event) : Prop := {
  cf_requests : requests L = exports_ok L;
  cf_unlinks : unlinks L = exports_ok L;
  cf_order :
    exports_ok L ++ exports_failed L ⊆+ (chunk_filename ruta dir <$> ixs);
  cf_sublist : requests L `sublist_of` (chunk_filename ruta dir <$> ixs)
}.

Lemma step_files (E : Env) (ruta dir : Path) (n cd total : Z)
    (acc : Acc) (i : Z) (h : nat) :
  chunk_files_ok ruta dir [i] (step_effect E ruta dir n cd total acc i h).2.
Proof.
  unfold step_effect. destruct (chunk_bounds n cd total i) as [s e].
  destruct (e <=? s).
  { split; cbn; [done|done|apply submseteq_nil_l|apply sublist_nil_l]. }
  destruct (export_ok E _ _); split; cbn; try done.
  by apply sublist_cons.
Qed.

Lemma loop_files (E : Env) (ruta dir : Path) (n cd total : Z) (ixs : list Z) :
  ∀ (acc : Acc) (h : nat),
    chunk_files_ok ruta dir ixs (loop_effect E ruta dir n cd total ixs acc h).2.
Proof.
  induction ixs as [|i ixs IH]; intros acc h; cbn [loop_effect].
  { split; cbn; done. }
  pose proof (step_files E ruta dir n cd total acc i h) as [Hr1 Hu1 Ho1 Hs1].
  destruct (step_effect E ruta dir n cd total acc i h) as [[acc1 H1] L1].
  destruct (IH acc1 (h + length H1)%nat) as [Hr2 Hu2 Ho2 Hs2].
  destruct (loop_effect E ruta dir n cd total ixs acc1 (h + length H1)%nat)
    as [[acc2 H2] L2].
  cbn [snd] in *. split.
  - by rewrite requests_app, exports_ok_app, Hr1, Hr2.
  - by rewrite unlinks_app, exports_ok_app, Hu1, Hu2.
  - rewrite exports_ok_app, exports_failed_app.
    change (chunk_filename ruta dir <$> i :: ixs)
      with ((chunk_filename ruta dir <$> [i]) ++ (chunk_filename ruta dir <$> ixs)).
    etrans; [|by apply submseteq_app]. apply Permutation_submseteq.
    rewrite <- !app_assoc. f_equiv. rewrite !app_assoc. f_equiv.
    apply Permutation_app_comm.
  - rewrite requests_app.
    change (chunk_filename ruta dir <$> i :: ixs)
      with ((chunk_filename ruta dir <$> [i]) ++ (chunk_filename ruta dir <$> ixs)).
    by apply sublist_app.
Qed.


(** A world where the export of the second chunk fails and the service is
    down for the third. *)
Definition E_export_fails : Env :=
  {| decode_ok := λ _, true;
     st_size := λ _, 60000000;
     from_wav := λ _, Some 12001;
     slice_ok := λ _ _ _, true;
     export_ok := λ _ p, negb (bool_decide (p = chunk_filename wav_a chunks_dir 1));
     api_transcribe :=
       λ p, if bool_decide (p = chunk_filename wav_a chunks_dir 2)
            then None else Some respuesta_hola;
     di_pipeline := None;
     is_dir := λ _, true;
     glob := λ _, [];
     is_file := λ _, true;
     tmpdir := tmp |}.


(** There chunk 1 and chunk 3 are sent and deleted, chunk 2 is not, and
    the unit has the text of chunk 1. *)
Example export_fails_run :
  ∃ r st',
    _transcribir_wav_con_chunking_opcional E_export_fails wav_a chunks_dir
      false st0
    = (Some (Some r), st') ∧
    requests (log st')
    = [chunk_filename wav_a chunks_dir 0; chunk_filename wav_a chunks_dir 2] ∧
    unlinks (log st') = requests (log st') ∧
    exports_failed (log st') = [chunk_filename wav_a chunks_dir 1] ∧
    r_text r = Some (lit "hola").
Proof. eexists _, _. split_and!; by vm_compute. Qed.

(** ** The segment objects of a chunked unit (lines 152, 176-181) *)

(** The segment objects of the results that the requests returned. *)
Definition own_locs (L : list Event) : list loc :=
  concat ((λ r, default [] (r_segments r)) <$> dispatched L).

Lemma own_locs_app (L1 L2 : list Event) :
  own_locs (L1 ++ L2) = own_locs L1 ++ own_locs L2.
Proof. unfold own_locs. by rewrite dispatched_app, fmap_app, concat_app. Qed.

(** The objects that a run of the loop creates are the segments of the
    chunk results and the segments it adds to the combined list, each one
    once. *)
Definition objects_accounted (acc : Acc) (h : nat)
    (out : Acc * list Segment * list Event) : Prop :=
  let '(acc', H, L) := out in
  ∃ news : list loc,
    all_segments acc' = all_segments acc ++ news ∧
    length news = length (own_locs L) ∧
    own_locs L ++ news ≡ₚ seq h (length H).

Lemma step_accounted (E : Env) (ruta dir : Path) (n cd total : Z)
    (acc : Acc) (i : Z) (h : nat) :
  objects_accounted acc h (step_effect E ruta dir n cd total acc i h).
Proof.
  unfold objects_accounted, step_effect.
  destruct (chunk_bounds n cd total i) as [s e].
  destruct (e <=? s); [exists []; by rewrite app_nil_r|].
  destruct (export_ok E _ _); [|exists []; by rewrite app_nil_r].
  unfold whisper_result, whisper_objects, absorbed, own_locs.
  destruct (api_transcribe E _) as [respuesta|]; cbn;
    [|exists []; by rewrite app_nil_r].
  destruct (api_segments respuesta) as [ss|]; cbn;
    [|exists []; by rewrite app_nil_r].
  exists (seq (h + length ss) (length (seq h (length ss)))).
  rewrite !app_nil_r, !length_seq, length_app, length_fmap.
  split_and!; [done..|]. by rewrite seq_app.
Qed.

Lemma loop_accounted (E : Env) (ruta dir : Path) (n cd total : Z)
    (ixs : list Z) :
  ∀ (acc : Acc) (h : nat),
    objects_accounted acc h (loop_effect E ruta dir n cd total ixs acc h).
Proof.
  induction ixs as [|i ixs IH]; intros acc h; cbn [loop_effect].
  { exists []. by rewrite app_nil_r. }
  pose proof (step_accounted E ruta dir n cd total acc i h) as Hs.
  destruct (step_effect E ruta dir n cd total acc i h) as [[acc1 H1] L1].
  specialize (IH acc1 (h + length H1)%nat).
  destruct (loop_effect E ruta dir n cd total ixs acc1 (h + length H1)%nat)
    as [[acc2 H2] L2].
  destruct Hs as (news1 & Ha1 & Hl1 & Hp1), IH as (news2 & Ha2 & Hl2 & Hp2).
  exists (news1 ++ news2). split_and!.
  - by rewrite Ha2, Ha1, app_assoc.
  - rewrite own_locs_app, !length_app. lia.
  - rewrite own_locs_app, length_app, seq_app, <- Hp1, <- Hp2.
    rewrite <- !app_assoc. f_equiv. rewrite !app_assoc. f_equiv.
    apply Permutation_app_comm.
Qed.

(** The segments of the result of a chunked unit are new objects, all
    different, as many as the segments that the successful requests
    returned, and none of them is a segment of a chunk result: together
    with those they are exactly the objects that the call created. *)
Theorem chunked_segments_fresh (E : Env) (ruta dir : Path)
    (forzar_chunking : bool) (st : State) :
  chunked E ruta forzar_chunking →
  ∃ (res : option Resultado) (st' : State) (L : list Event),
    _transcribir_wav_con_chunking_opcional E ruta dir forzar_chunking st
    = (Some res, st') ∧
    log st' = log st ++ L ∧
    ∀ (r : Resultado) (segs : list loc),
      res = Some r → r_segments r = Some segs →
      length segs = length (own_locs L) ∧
      own_locs L ++ segs
      ≡ₚ seq (length (heap st)) (length (heap st') - length (heap st)) ∧
      NoDup segs ∧
      ∀ l, l ∈ segs → (l ∉ own_locs L) ∧ (length (heap st) ≤ l)%nat.
Proof.
  intros Hc. destruct st as [h lg].
  destruct (chunked_run_cases E ruta dir forzar_chunking h lg Hc)
    as [-> | (total & _ & _ & ->)].
  - exists None, (mkState h lg), []. by rewrite app_nil_r.
  - set (n := num_chunks_of (st_size E ruta)).
    pose proof (loop_accounted E ruta dir n (chunk_duration_of total n) total
                  (seqZ 0 n) acc0 (length h)) as Ha.
    destruct (loop_effect _ _ _ _ _ _ _ _ _) as [[acc H] L].
    destruct Ha as (news & Hseg & Hlen & Hperm). cbn in Hseg.
    eexists _, _, L. split_and!; [done..|]. intros r segs Hr Hs.
    unfold combined_result in Hr. destruct (truthy (all_text acc)); [|done].
    injection Hr as <-. cbn in Hs. injection Hs as <-. rewrite Hseg.
    cbn [heap]. rewrite length_app, Nat.add_comm, Nat.add_sub.
    assert (Hnd : NoDup (own_locs L ++ news))
      by (rewrite Hperm; apply NoDup_seq).
    apply NoDup_app in Hnd as (_ & Hdis & Hnews).
    split_and!; [done..|]. intros l Hl. split.
    + intros Hown. by apply (Hdis l).
    + assert (Hin : l ∈ seq (length h) (length H)).
      { rewrite <- Hperm. apply elem_of_app. by right. }
      apply elem_of_seq in Hin. lia.
Qed.

Lemma chunked_segments_fresh_witness :
  ∃ (res : option Resultado) (st' : State) (L : list Event),
    _transcribir_wav_con_chunking_opcional E_large wav_a chunks_dir false st0
    = (Some res, st') ∧
    log st' = log st0 ++ L ∧
    ∀ (r : Resultado) (segs : list loc),
      res = Some r → r_segments r = Some segs →
      length segs = length (own_locs L) ∧
      own_locs L ++ segs
      ≡ₚ seq (length (heap st0)) (length (heap st') - length (heap st0)) ∧
      NoDup segs ∧
      ∀ l, l ∈ segs → (l ∉ own_locs L) ∧ (length (heap st0) ≤ l)%nat.
Proof.
  apply (chunked_segments_fresh E_large wav_a chunks_dir false st0).
  right. by vm_compute.
Defined.

(** In the 60 MB unit the chunk results own the objects 0, 2, 4 and the
    combined result the objects 1, 3, 5. *)
Example large_unit_objects :
  ∃ r st',
    _transcribir_wav_con_chunking_opcional E_large wav_a chunks_dir false st0
    = (Some (Some r), st') ∧
    own_locs (log st') = [0; 2; 4]%nat ∧
    r_segments r = Some [1; 3; 5]%nat ∧ length (heap st') = 6%nat.
Proof. eexists _, _. split_and!; by vm_compute. Qed.

(** ** Forced chunking of a unit within the limit (lines 135-143) *)

(** A short file whose service pads its text. *)
Definition E_padded_small : Env :=
  world 320044 10000 (λ _, Some respuesta_padded) None.

(** When chunking is forced on a unit within the limit that lasts at least
    1 ms, there is one chunk, the whole of [0, total).  If its export and
    its request succeed, with an answer that carries every field, the
    unit has a result that is not the dictionary the direct path returns:
    the text is the answer's text stripped, the language the answer's,
    and the segments are new objects, as many as the answer's. *)
Theorem forced_single_chunk (E : Env) (ruta dir : Path) (total : Z)
    (respuesta : ApiRespuesta) (texto idioma : str) (ss : list Segment)
    (st : State) :
  st_size E ruta <= WHISPER_API_LIMIT_BYTES →
  from_wav E ruta = Some total →
  0 < total →
  let file := chunk_filename ruta dir 0 in
  export_ok E (Slice (FromWav ruta) 0 total) file = true →
  api_transcribe E file = Some respuesta →
  api_text respuesta = Some texto →
  api_language respuesta = Some idioma →
  api_segments respuesta = Some ss →
  forallb segmento_completo ss = true →
  ∃ (r : Resultado) (st' : State) (L : list Event) (segs : list loc),
    _transcribir_wav_con_chunking_opcional E ruta dir true st
    = (Some (Some r), st') ∧
    log st' = log st ++ L ∧
    slices L = [(0, total)] ∧ requests L = [file] ∧ unlinks L = [file] ∧
    r_text r = Some (strip texto) ∧
    r_language r = Some idioma ∧
    r_segments r = Some segs ∧
    length segs = length ss ∧
    Forall (λ l, (length (heap st) + length ss ≤ l)%nat) segs.
Proof.
  intros Hle Hw Htotal file Hex Hapi Htexto Hidioma Hss _.
  destruct st as [h lg].
  assert (Hn : num_chunks_of (st_size E ruta) = 1).
  { unfold num_chunks_of. by destruct (Z.ltb_spec WHISPER_API_LIMIT_BYTES
                                         (st_size E ruta)); [lia|]. }
  assert (Hcd : chunk_duration_of total 1 = total).
  { unfold chunk_duration_of. rewrite Z.div_1_r.
    by destruct (Z.eqb_spec total 0); [lia|]. }
  rewrite (chunked_run E ruta dir true total);
    [|by left|done|rewrite Hn, Hcd; lia].
  rewrite Hn, Hcd. change (seqZ 0 1) with [0]. cbn [loop_effect].
  unfold step_effect. change (chunk_bounds 1 total total 0) with (0, total).
  cbv iota beta. destruct (Z.leb_spec total 0) as [?|_]; [lia|].
  fold file. rewrite Hex. unfold whisper_result, whisper_objects, absorbed.
  rewrite Hapi, Htexto, Hidioma, Hss.
  cbn [fst snd all_text all_segments last_successful_lang acc0
         r_text r_language r_segments app fmap option_fmap option_map
         default].
  unfold combined_result, id.
  cbn [all_text all_segments last_successful_lang].
  destruct (texto ++ lit " ") as [|c cs] eqn:Htxt.
  { by apply app_eq_nil in Htxt as [_ ?]. }
  cbn [truthy]. rewrite <- Htxt, strip_snoc_space.
  eexists _, _, _, _. split_and!; try reflexivity.
  - by rewrite !length_seq.
  - cbn [heap]. apply Forall_forall. intros l Hl.
    apply elem_of_seq in Hl. lia.
Qed.

Lemma forced_single_chunk_witness :
  ∃ (r : Resultado) (st' : State) (L : list Event) (segs : list loc),
    _transcribir_wav_con_chunking_opcional E_padded_small wav_a chunks_dir
      true st0
    = (Some (Some r), st') ∧
    log st' = log st0 ++ L ∧
    slices L = [(0, 10000)] ∧
    requests L = [chunk_filename wav_a chunks_dir 0] ∧
    unlinks L = [chunk_filename wav_a chunks_dir 0] ∧
    r_text r = Some (lit "hola") ∧
    r_language r = Some (lit "es") ∧
    r_segments r = Some segs ∧
    length segs = 1%nat ∧
    Forall (λ l, (1 ≤ l)%nat) segs.
Proof.
  apply (forced_single_chunk E_padded_small wav_a chunks_dir 10000
           respuesta_padded (lit "  hola ") (lit "es") [seg_hola] st0).
  - by vm_compute.
  - reflexivity.
  - lia.
  - reflexivity.
  - reflexivity.
  - reflexivity.
  - reflexivity.
  - reflexivity.
  - reflexivity.
Defined.

(** The same small unit on both paths: the direct path returns the text
    as the service sent it and the segment object of the answer, the
    forced path the stripped text and a copy of the segment. *)
Example direct_and_forced_differ :
  ∃ r1 s1 r2 s2,
    _transcribir_wav_con_chunking_opcional E_padded_small wav_a chunks_dir
      false st0 = (Some (Some r1), s1) ∧
    _transcribir_wav_con_chunking_opcional E_padded_small wav_a chunks_dir
      true st0 = (Some (Some r2), s2) ∧
    r_text r1 = Some (lit "  hola ") ∧ r_segments r1 = Some [0%nat] ∧
    r_text r2 = Some (lit "hola") ∧ r_segments r2 = Some [1%nat].
Proof. eexists _, _, _, _. split_and!; by vm_compute. Qed.

(* ================================================================== *)
(** * More on the files *)

(** ** Names: stems and suffixes *)

Lemma rfind_app_r (c : N) (l1 l2 : str) (i : nat) :
  rfind c l2 = Some i → rfind c (l1 ++ l2) = Some (length l1 + i)%nat.
Proof.
  intros H2. induction l1 as [|x l1 IH]; [done|].
  cbn [app rfind length]. by rewrite IH.
Qed.

Lemma rfind_lt (c : N) (s : str) (i : nat) :
  rfind c s = Some i → (i < length s)%nat.
Proof.
  revert i. induction s as [|x s IH]; intros i; [done|]. cbn [rfind length].
  destruct (rfind c s) as [j|].
  - intros [= <-]. specialize (IH j eq_refl). lia.
  - destruct (x =? c)%N; [|done]. intros [= <-]. lia.
Qed.

(** A name is its stem followed by its suffix, and the stem of a name
    that is not empty is not empty. *)
Lemma stem_suffix (nm : str) : stem_of nm ++ suffix_of nm = nm.
Proof.
  unfold stem_of, suffix_of. destruct (suffix_index nm) as [i|].
  - apply take_drop.
  - apply app_nil_r.
Qed.

Lemma stem_of_nonempty (nm : str) : nm ≠ [] → stem_of nm ≠ [].
Proof.
  intros Hne. unfold stem_of, suffix_index.
  destruct (rfind dot nm) as [i|]; [|done].
  destruct (Nat.ltb_spec 0 i) as [Hi|Hi]; [|done]. cbn [andb].
  destruct (i <? length nm - 1)%nat; [|done].
  destruct nm as [|c nm]; [done|]. destruct i; [lia|done].
Qed.

(** Adding ".wav" to a stem gives a name with that stem and that suffix,
    whatever dots the stem holds. *)
Lemma stem_of_wav (s : str) :
  s ≠ [] →
  stem_of (s ++ lit ".wav") = s ∧ suffix_of (s ++ lit ".wav") = lit ".wav".
Proof.
  intros Hne. unfold stem_of, suffix_of, suffix_index.
  rewrite (rfind_app_r dot s (lit ".wav") 0) by done.
  rewrite Nat.add_0_r, length_app.
  assert (Hlen : (0 < length s)%nat) by (destruct s; [done|simpl; lia]).
  destruct (Nat.ltb_spec 0 (length s)) as [_|?]; [|lia].
  change (length (lit ".wav")) with 4%nat.
  destruct (Nat.ltb_spec (length s) (length s + 4 - 1)) as [_|?]; [|lia].
  cbn [andb]. by rewrite take_app_length, drop_app_length.
Qed.

(** ** [convertir_a_wav] (lines 78-79) *)

(** The WAV that [convertir_a_wav] makes lies in the temporary directory,
    has the suffix ".wav" and has the stem of the original, dots and all;
    so the temporary files of the turns and chunks carry that stem too. *)
Theorem convertir_a_wav_stem (E : Env) (ruta_audio dir_temporal ruta_wav : Path) :
  name ruta_audio ≠ [] →
  convertir_a_wav E ruta_audio dir_temporal = Some ruta_wav →
  decode_ok E ruta_audio = true ∧
  parent ruta_wav = parent dir_temporal ++ [name dir_temporal] ∧
  stem ruta_wav = stem ruta_audio ∧
  suffix ruta_wav = lit ".wav".
Proof.
  intros Hne. unfold convertir_a_wav.
  destruct (decode_ok E ruta_audio); [|done]. intros [= <-].
  rewrite join_path_long
    by (rewrite length_app; change (length (lit ".wav")) with 4%nat; lia).
  unfold stem, suffix. cbn [name parent].
  destruct (stem_of_wav (stem_of (name ruta_audio))) as [Hs Hx];
    [by apply stem_of_nonempty|].
  by rewrite Hs, Hx.
Qed.

Lemma convertir_a_wav_stem_witness :
  decode_ok E_small audio_a_b = true ∧
  parent (mkPath [lit "tmp"; lit "wav"] (lit "a.b.wav"))
  = parent (join_path tmp (lit "wav")) ++ [name (join_path tmp (lit "wav"))] ∧
  stem (mkPath [lit "tmp"; lit "wav"] (lit "a.b.wav")) = stem audio_a_b ∧
  suffix (mkPath [lit "tmp"; lit "wav"] (lit "a.b.wav")) = lit ".wav".
Proof.
  apply (convertir_a_wav_stem E_small audio_a_b (join_path tmp (lit "wav"))).
  - by vm_compute.
  - reflexivity.
Defined.

(** ** The output file (lines 265, 303) *)



Definition audio_dots : Path := mkPath [lit "audio"] (lit "..mp3").


(** The transcript of "audio/..mp3" is written to "text.diarized.txt",
    beside the output directory "text"; that of "audio/a.mp3" to
    "text/a.diarized.txt". *)
Example dots_output :
  stem audio_dots = lit "." ∧
  ruta_salida_de out_dir audio_dots = mkPath [] (lit "text.diarized.txt") ∧
  ruta_salida_de out_dir audio_a = mkPath [lit "text"] (lit "a.diarized.txt").
Proof. split_and!; by vm_compute. Qed.

(** ** The names of the temporary files (lines 163, 362) *)

Definition underscore : N := 95.

Lemma lit_String (a : ascii) (s : string) :
  lit (String a s) = N_of_ascii a :: lit s.
Proof. reflexivity. Qed.

Lemma pretty_N_go_no_underscore (x : N) (s : string) :
  underscore ∉ lit s → underscore ∉ lit (pretty_N_go x s).
Proof.
  revert s. induction (N.lt_wf_0 x) as [x _ IH]; intros s Hs.
  assert (x = 0 ∨ 0 < x)%N as [->|Hx] by lia.
  - by rewrite pretty_N_go_0.
  - rewrite pretty_N_go_step by done. apply IH; [by apply N.div_lt|].
    rewrite lit_String. apply not_elem_of_cons. split; [|done].
    unfold pretty_N_char, underscore. by repeat case_match.
Qed.

(** The decimal writing of an integer holds no underscore. *)
Lemma of_int_no_underscore (z : Z) : underscore ∉ of_int z.
Proof.
  unfold of_int, pretty, pretty_Z.
  assert (HN : ∀ p, underscore ∉ lit (pretty (N.pos p))).
  { intros p. unfold pretty, pretty_N. case_decide; [done|].
    apply pretty_N_go_no_underscore. apply not_elem_of_nil. }
  destruct z as [|p|p].
  - unfold underscore. cbn. rewrite !not_elem_of_cons.
    split; [done|apply not_elem_of_nil].
  - apply HN.
  - change (lit ("-" +:+ pretty p)) with (45%N :: lit (pretty (N.pos p))).
    apply not_elem_of_cons. split; [done|apply HN].
Qed.

Lemma split_at_first {A} (c : A) (l1 l2 r1 r2 : list A) :
  c ∉ l1 → c ∉ l2 → l1 ++ c :: r1 = l2 ++ c :: r2 → l1 = l2 ∧ r1 = r2.
Proof.
  revert l2. induction l1 as [|x l1 IH]; intros [|y l2] H1 H2 Heq.
  - by injection Heq as ->.
  - injection Heq as <- _. by apply not_elem_of_cons in H2 as [? _].
  - injection Heq as -> _. by apply not_elem_of_cons in H1 as [? _].
  - injection Heq as -> Heq.
    apply not_elem_of_cons in H1 as [_ H1], H2 as [_ H2].
    destruct (IH l2 H1 H2 Heq) as [-> ->]. done.
Qed.

Lemma ruta_turno_eq (base ruta_wav : Path) (i : Z) :
  ruta_turno base ruta_wav i
  = {| parent := parent base ++ [name base; lit "turn_chunks"];
       name := stem ruta_wav ++ lit "_turn_" ++ of_int (i + 1) ++ lit ".wav" |}.
Proof.
  unfold ruta_turno. rewrite join_path_long.
  - change (join_path base (lit "turn_chunks"))
      with {| parent := parent base ++ [name base];
              name := lit "turn_chunks" |}.
    cbn [parent name]. by rewrite <- app_assoc.
  - rewrite !length_app. change (length (lit "_turn_")) with 6%nat. lia.
Qed.

Lemma ruta_turno_inj (base ruta_wav : Path) (i j : Z) :
  ruta_turno base ruta_wav i = ruta_turno base ruta_wav j → i = j.
Proof.
  rewrite !ruta_turno_eq. unfold of_int. intros Heq.
  apply (f_equal name) in Heq. cbn [name] in Heq.
  apply (app_inv_head (stem ruta_wav)) in Heq.
  apply (app_inv_head (lit "_turn_")) in Heq.
  apply (app_inv_tail (lit ".wav")) in Heq.
  apply lit_inj, (inj pretty) in Heq. lia.
Qed.

Lemma stem_ruta_turno (base ruta_wav : Path) (i : Z) :
  stem (ruta_turno base ruta_wav i)
  = stem ruta_wav ++ lit "_turn_" ++ of_int (i + 1).
Proof.
  rewrite ruta_turno_eq. unfold stem. cbn [name].
  rewrite !app_assoc. rewrite <- (app_assoc (stem_of (name ruta_wav))).
  apply stem_of_wav. intros Hnil.
  apply app_eq_nil in Hnil as [_ Hnil]. by apply app_eq_nil in Hnil as [? _].
Qed.

(** While one input file is processed no two temporary files have the
    same name: the chunks of a unit differ, the WAVs of the turns differ,
    and a chunk of one turn is never a chunk of another turn. *)
Theorem temporary_files_differ (base ruta_wav dir : Path) (i j k l : Z) :
  (i, k) ≠ (j, l) →
  (i ≠ j → ruta_turno base ruta_wav i ≠ ruta_turno base ruta_wav j) ∧
  (k ≠ l → chunk_filename ruta_wav dir k ≠ chunk_filename ruta_wav dir l) ∧
  chunk_filename (ruta_turno base ruta_wav i) dir k
  ≠ chunk_filename (ruta_turno base ruta_wav j) dir l.
Proof.
  intros Hne. split_and!.
  - intros Hij Heq. by apply ruta_turno_inj in Heq.
  - intros Hkl Heq. by apply chunk_filename_inj in Heq.
  - intros Heq. apply Hne. rewrite !chunk_filename_eq in Heq.
    apply (f_equal name) in Heq. cbn [name] in Heq.
    rewrite !stem_ruta_turno, <- !app_assoc in Heq.
    apply (app_inv_head (stem ruta_wav)) in Heq.
    apply (app_inv_head (lit "_turn_")) in Heq.
    change (lit "_chunk_") with (underscore :: lit "chunk_") in Heq.
    apply split_at_first in Heq as [Hi Hk];
      [|apply of_int_no_underscore..].
    apply (app_inv_head (lit "chunk_")) in Hk.
    apply (app_inv_tail (lit ".wav")) in Hk.
    unfold of_int in Hi, Hk.
    apply lit_inj, (inj pretty) in Hi. apply lit_inj, (inj pretty) in Hk.
    f_equal; lia.
Qed.

(** Turn 1 with its chunk 11 against turn 11 with its chunk 1. *)
Lemma temporary_files_differ_witness :
  (0 ≠ 10 → ruta_turno tmp wav_a 0 ≠ ruta_turno tmp wav_a 10) ∧
  (10 ≠ 0 → chunk_filename wav_a chunks_dir 10 ≠ chunk_filename wav_a chunks_dir 0) ∧
  chunk_filename (ruta_turno tmp wav_a 0) chunks_dir 10
  ≠ chunk_filename (ruta_turno tmp wav_a 10) chunks_dir 0.
Proof.
  apply (temporary_files_differ tmp wav_a chunks_dir 0 10 10 0).
  intros [= ].
Defined.

(* ================================================================== *)
(** * More on the aggregator *)

(** The directories of the temporary files of the turns and of the chunks
    (lines 327, 339 and 370), below the temporary directory [base]. *)
Definition dirs_trozos : list str :=
  [lit "chunks_full"; lit "turn_chunks"; lit "turn_subchunks"].

(** The file [p] lies in one of them. *)
Definition en_trozos (base p : Path) : Prop :=
  ∃ d, d ∈ dirs_trozos ∧ parent p = parent base ++ [name base; d].

Lemma en_trozos_dir (base p : Path) (d : string) :
  lit d ∈ dirs_trozos →
  parent p = parent (join_path base (lit d)) ++ [name (join_path base (lit d))] →
  en_trozos base p.
Proof.
  intros Hd Hp. exists (lit d). split; [done|]. rewrite Hp.
  unfold dirs_trozos in Hd. rewrite !elem_of_cons, elem_of_nil in Hd.
  destruct Hd as [Hd|[Hd|[Hd|[]]]]; apply lit_inj in Hd as ->;
    unfold join_path; cbn; by rewrite <- app_assoc.
Qed.

(** The converted WAV of an input does not lie in one of them: it goes
    to the directory "wav" (line 307). *)
Lemma wav_not_en_trozos (E : Env) (base ruta_audio ruta_wav : Path) :
  convertir_a_wav E ruta_audio (join_path base (lit "wav")) = Some ruta_wav →
  ¬ en_trozos base ruta_wav.
Proof.
  unfold convertir_a_wav. destruct (decode_ok E ruta_audio); [|done].
  intros [= <-] (d & Hd & Hp). revert Hp.
  rewrite join_path_long
    by (rewrite length_app; change (length (lit ".wav")) with 4%nat; lia).
  change (join_path base (lit "wav"))
    with {| parent := parent base ++ [name base]; name := lit "wav" |}.
  cbn [parent name]. rewrite <- app_assoc. intros Hp.
  apply app_inv_head in Hp. injection Hp as <-.
  unfold dirs_trozos in Hd. rewrite !elem_of_cons, elem_of_nil in Hd.
  destruct Hd as [Hd|[Hd|[Hd|[]]]]; by apply lit_inj in Hd.
Qed.

(** Whatever the path, the transcriber returns, writes no transcript, and
    has called [unlink] on every file that it exported and on nothing
    else; those files lie in the directory it was given. *)
Lemma transcribir_effects (E : Env) (ruta dir : Path) (forzar_chunking : bool)
    (h : list Segment) (lg : list Event) :
  ∃ (res : option Resultado) (H : list Segment) (L : list Event),
    _transcribir_wav_con_chunking_opcional E ruta dir forzar_chunking
      (mkState h lg)
    = (Some res, mkState (h ++ H) (lg ++ L)) ∧
    writes L = [] ∧ exports_ok L = unlinks L ∧
    Forall (λ p, parent p = parent dir ++ [name dir]) (unlinks L) ∧
    (servicio_completo E →
     Forall (λ r, resultado_completo r = true) (dispatched L)).
Proof.
  destruct (decide (negb forzar_chunking
                    && (st_size E ruta <=? WHISPER_API_LIMIT_BYTES) = true))
    as [Hd|Hd].
  - apply andb_true_iff in Hd as [Hf Hle].
    apply negb_true_iff in Hf as ->. apply Z.leb_le in Hle.
    rewrite direct_run, whisper_run by done. eexists _, _, _.
    split_and!; [done..|apply Forall_nil_2|].
    apply whisper_dispatched_complete.
  - assert (Hc : chunked E ruta forzar_chunking).
    { unfold chunked. destruct forzar_chunking; [by left|right].
      simpl in Hd. apply not_true_is_false in Hd. by apply Z.leb_gt in Hd. }
    destruct (chunked_run_cases E ruta dir forzar_chunking h lg Hc)
      as [-> | (total & _ & _ & ->)].
    + exists None, [], []. rewrite !app_nil_r.
      split_and!; [done..|apply Forall_nil_2|]. intros _. apply Forall_nil_2.
    + set (n := num_chunks_of (st_size E ruta)).
      pose proof (loop_writes E ruta dir n (chunk_duration_of total n) total
                    (seqZ 0 n) acc0 (length h)) as Hwr.
      pose proof (loop_files E ruta dir n (chunk_duration_of total n) total
                    (seqZ 0 n) acc0 (length h)) as [Hr Hu _ Hs].
      pose proof (λ HE, loop_dispatched_complete E ruta dir n
                    (chunk_duration_of total n) total (seqZ 0 n) HE acc0
                    (length h)) as Hall.
      destruct (loop_effect _ _ _ _ _ _ _ _ _) as [[acc H] L].
      cbn [snd] in *. eexists _, H, L. split_and!; [done..| |done].
      rewrite Hu, <- Hr. apply Forall_forall. intros p Hp.
      eapply elem_of_sublist in Hp; [|exact Hs].
      apply list_elem_of_fmap in Hp as (i & -> & _).
      by rewrite chunk_filename_eq.
Qed.

(** What a turn needs to get a line: bounds at least 100 ms apart, a
    slice and an export that worked. *)
Definition turno_apto (E : Env) (base ruta_wav : Path) (it : Z * Turn) : Prop :=
  ∃ start_ms end_ms : Z,
    turn_ms it.2 = Some (start_ms, end_ms) ∧
    100 <= end_ms - start_ms ∧
    slice_ok E (FromWav ruta_wav) start_ms end_ms = true ∧
    export_ok E (Slice (FromWav ruta_wav) start_ms end_ms)
      (ruta_turno base ruta_wav it.1) = true.

(** One turn, whatever its outcome. *)
Lemma procesar_turno_effects (E : Env) (base ruta_wav : Path) (texto : str)
    (i : Z) (t : Turn) (st : State) (o : option str) (st' : State) :
  procesar_turno E base ruta_wav texto (i, t) st = (o, st') →
  ∃ L : list Event,
    log st' = log st ++ L ∧ writes L = [] ∧ exports_ok L ≡ₚ unlinks L ∧
    Forall (en_trozos base) (unlinks L) ∧
    (servicio_completo E →
     Forall (λ r, resultado_completo r = true) (dispatched L)) ∧
    (o = None ∧ turn_ms t = None ∧ L = []
     ∨ o = Some texto
     ∨ turno_apto E base ruta_wav (i, t) ∧
       ∃ tx, tx ≠ [] ∧ o = Some (texto ++ linea t tx)).
Proof.
  unfold procesar_turno. destruct st as [h lg].
  destruct (turn_ms t) as [[start_ms end_ms]|] eqn:Hms.
  2:{ intros [= <- <-]. exists []. rewrite app_nil_r.
      split_and!; auto using Forall_nil_2. }
  intros Hrun.
  destruct (Z.ltb_spec (end_ms - start_ms) 100) as [Hshort|Hlong].
  { injection Hrun as <- <-. exists []. rewrite app_nil_r.
    split_and!; auto using Forall_nil_2. }
  emit_step in Hrun.
  destruct (slice_ok E _ _ _) eqn:Hsl; cbn [negb] in Hrun.
  2:{ injection Hrun as <- <-. eexists. split; [done|].
      split_and!; auto using Forall_nil_2. }
  destruct (export_ok E _ _) eqn:Hex; cbn [negb] in Hrun.
  2:{ unfold bind, emit, ret in Hrun. cbn [heap log] in Hrun.
      injection Hrun as <- <-. eexists. rewrite <- app_assoc.
      split; [done|]. split_and!; auto using Forall_nil_2. }
  emit_step in Hrun. unfold bind at 1 in Hrun.
  destruct (transcribir_effects E (ruta_turno base ruta_wav i)
              (join_path base (lit "turn_subchunks")) false h
              ((lg ++ [EvSlice (FromWav ruta_wav) start_ms end_ms])
               ++ [EvExport (Slice (FromWav ruta_wav) start_ms end_ms)
                     (ruta_turno base ruta_wav i) true]))
    as (res & H & L & Htr & Hwr & Hfiles & Hwhere & Hcomp).
  unfold ruta_turno in Htr. rewrite Htr in Hrun.
  unfold bind, emit, ret in Hrun. cbn [heap log] in Hrun.
  injection Hrun as <- <-. cbn [log].
  exists ([EvSlice (FromWav ruta_wav) start_ms end_ms;
           EvExport (Slice (FromWav ruta_wav) start_ms end_ms)
             (ruta_turno base ruta_wav i) true]
          ++ L ++ [EvUnlink (ruta_turno base ruta_wav i)]).
  split; [by rewrite <- !app_assoc|].
  split; [by rewrite !writes_app, Hwr|].
  split.
  { rewrite !exports_ok_app, !unlinks_app, Hfiles. cbn.
    rewrite app_nil_r. apply Permutation_cons_append. }
  split.
  { rewrite !unlinks_app. apply Forall_app. split; [by apply Forall_nil_2|].
    apply Forall_app. split.
    - eapply Forall_impl; [exact Hwhere|]. intros p Hp.
      by apply (en_trozos_dir base p "turn_subchunks");
        [unfold dirs_trozos; rewrite !elem_of_cons; auto|].
    - apply Forall_singleton. exists (lit "turn_chunks").
      split; [unfold dirs_trozos; rewrite !elem_of_cons; auto|].
      by rewrite ruta_turno_eq. }
  split.
  { intros HE. rewrite !dispatched_app. apply Forall_app.
    split; [by apply Forall_nil_2|]. apply Forall_app.
    split; [by apply Hcomp|by apply Forall_nil_2]. }
  destruct (has_text res) as [tx|] eqn:Htx; [right; right|by right; left].
  apply has_text_Some in Htx as (r & -> & Hr & Hne).
  split; [by exists start_ms, end_ms|]. by exists tx.
Qed.

(** The loop over the turns, whatever its outcome. *)
Lemma turnos_effects (E : Env) (base ruta_wav : Path) (its : list (Z * Turn)) :
  ∀ (texto : str) (st : State) (o : option str) (st' : State),
    for_each its (procesar_turno E base ruta_wav) texto st = (o, st') →
    ∃ L : list Event,
      log st' = log st ++ L ∧ writes L = [] ∧ exports_ok L ≡ₚ unlinks L ∧
      Forall (en_trozos base) (unlinks L) ∧
      (servicio_completo E →
       Forall (λ r, resultado_completo r = true) (dispatched L)).
Proof.
  induction its as [|[i t] its IH]; intros texto st o st' Hrun.
  - injection Hrun as <- <-. exists []. rewrite app_nil_r.
    split_and!; [done..|apply Forall_nil_2|]. intros _. apply Forall_nil_2.
  - cbn [for_each] in Hrun. unfold bind in Hrun.
    destruct (procesar_turno E base ruta_wav texto (i, t) st)
      as [o1 st1] eqn:Hstep.
    apply procesar_turno_effects in Hstep
      as (L1 & Hlog1 & Hwr1 & Hf1 & Hu1 & Hc1 & _).
    destruct o1 as [texto1|].
    + apply IH in Hrun as (L2 & Hlog2 & Hwr2 & Hf2 & Hu2 & Hc2).
      exists (L1 ++ L2). split_and!.
      * by rewrite Hlog2, Hlog1, app_assoc.
      * by rewrite writes_app, Hwr1, Hwr2.
      * by rewrite exports_ok_app, unlinks_app, Hf1, Hf2.
      * rewrite unlinks_app. by apply Forall_app.
      * intros HE. rewrite dispatched_app. apply Forall_app. auto.
    + injection Hrun as <- <-. by exists L1.
Qed.

(** The loop over the turns when it ends well: the lines and their
    turns. *)
Lemma turnos_kept (E : Env) (base ruta_wav : Path) (its : list (Z * Turn)) :
  ∀ (texto : str) (st : State) (texto' : str) (st' : State),
    for_each its (procesar_turno E base ruta_wav) texto st = (Some texto', st') →
    ∃ kept : list (Z * Turn * str),
      kept.*1 `sublist_of` its ∧
      Forall (λ k, turno_apto E base ruta_wav k.1 ∧ k.2 ≠ []) kept ∧
      texto' = texto ++ concat ((λ k, linea k.1.2 k.2) <$> kept).
Proof.
  induction its as [|[i t] its IH]; intros texto st texto' st' Hrun.
  - injection Hrun as <- <-. exists []. by rewrite app_nil_r.
  - cbn [for_each] in Hrun. unfold bind in Hrun.
    destruct (procesar_turno E base ruta_wav texto (i, t) st)
      as [[texto1|] st1] eqn:Hstep; [|done].
    apply procesar_turno_effects in Hstep
      as (L1 & _ & _ & _ & _ & _ & Hcase).
    apply IH in Hrun as (kept & Hsub & Hall & ->).
    destruct Hcase as [(? & _) | [[= <-] | (Hapto & tx & Htx & [= ->])]];
      [done|..].
    + exists kept. split_and!; [by apply sublist_cons|done..].
    + exists ((i, t, tx) :: kept). split_and!.
      * by apply sublist_skip.
      * by constructor.
      * cbn. by rewrite <- !app_assoc.
Qed.

(** ** The lines of a transcript and their turns (lines 342-382) *)

(** Every line of a diarized transcript belongs to a turn whose bounds
    were at least 100 ms apart and whose slice and export worked; the
    lines follow the order of the turns, one per turn at most, so that
    there are no more lines than turns. *)
Theorem lines_come_from_fit_turns (E : Env) (base ruta_wav : Path)
    (turnos : list Turn) (st : State) (texto : str) (st' : State) :
  for_each (enumerate turnos) (procesar_turno E base ruta_wav) [] st
  = (Some texto, st') →
  ∃ kept : list (Z * Turn * str),
    kept.*1 `sublist_of` enumerate turnos ∧
    (length kept ≤ length turnos)%nat ∧
    Forall (λ k, turno_apto E base ruta_wav k.1 ∧ k.2 ≠ []) kept ∧
    texto = concat ((λ k, speaker k.1.2 ++ lit ": " ++ k.2 ++ nl) <$> kept).
Proof.
  intros Hrun. apply turnos_kept in Hrun as (kept & Hsub & Hall & ->).
  exists kept. split_and!; [done| |done..].
  apply sublist_length in Hsub. rewrite length_fmap in Hsub.
  unfold enumerate in Hsub. rewrite length_zip_with, length_seqZ in Hsub. lia.
Qed.

Lemma lines_come_from_fit_turns_witness :
  ∃ kept : list (Z * Turn * str),
    kept.*1 `sublist_of` enumerate [turno_A; turno_B; turno_C] ∧
    (length kept ≤ length [turno_A; turno_B; turno_C])%nat ∧
    Forall (λ k, turno_apto E_turnos tmp wav_a k.1 ∧ k.2 ≠ []) kept ∧
    lit "A: hola" ++ nl ++ lit "C: hola" ++ nl
    = concat ((λ k, speaker k.1.2 ++ lit ": " ++ k.2 ++ nl) <$> kept).
Proof.
  eapply (lines_come_from_fit_turns E_turnos tmp wav_a
            [turno_A; turno_B; turno_C] st0).
  by vm_compute.
Defined.

(** ** A turn whose bound is not a finite number (line 344) *)

Lemma turnos_raise (E : Env) (base ruta_wav : Path) (its : list (Z * Turn))
    (i : Z) (t : Turn) :
  (i, t) ∈ its → turn_ms t = None →
  ∀ (texto : str) (st : State),
    (for_each its (procesar_turno E base ruta_wav) texto st).1 = None.
Proof.
  intros Hin Hms. induction its as [|[j u] its IH]; intros texto st.
  { by apply elem_of_nil in Hin. }
  cbn [for_each]. unfold bind.
  destruct (procesar_turno E base ruta_wav texto (j, u) st)
    as [[texto1|] st1] eqn:Hstep; [|done].
  apply elem_of_cons in Hin as [[= <- <-] | Hin]; [|by apply IH].
  unfold procesar_turno in Hstep. by rewrite Hms in Hstep.
Qed.

Lemma elem_of_enumerate {X} (xs : list X) (x : X) :
  x ∈ xs → ∃ i, (i, x) ∈ enumerate xs.
Proof.
  intros Hin. apply list_elem_of_lookup in Hin as [k Hk].
  exists (Z.of_nat k). apply list_elem_of_lookup. exists k.
  unfold enumerate. apply lookup_zip_with_Some. eexists _, _.
  split_and!; [done| |done].
  apply lookup_lt_Some in Hk as Hlt. rewrite lookup_seqZ_lt by lia.
  by rewrite Z.add_0_l.
Qed.

(** [int] raises on a bound that is NaN or infinite and nothing catches
    it.  So when diarization gives a turn with such a bound, the
    processing of the file ends with that exception, and no transcript is
    written for the file: the lines of the turns before are lost. *)
Theorem non_finite_turn_aborts (E : Env)
    (dir_salida base ruta_audio ruta_wav : Path) (d : Z)
    (turnos : list Turn) (t : Turn) (st : State) :
  convertir_a_wav E ruta_audio (join_path base (lit "wav")) = Some ruta_wav →
  from_wav E ruta_wav = Some d →
  diarizar_audio E ruta_wav = Some turnos →
  t ∈ turnos →
  turn_ms t = None →
  ∃ (st' : State) (L : list Event),
    procesar_archivo E dir_salida base ruta_audio st = (None, st') ∧
    log st' = log st ++ L ∧ writes L = [].
Proof.
  intros Hconv Hw Hdi Hin Hms. unfold procesar_archivo.
  rewrite Hconv, Hw, Hdi. unfold bind.
  apply elem_of_enumerate in Hin as [i Hin].
  pose proof (turnos_raise E base ruta_wav (enumerate turnos) i t Hin Hms [] st)
    as Hnone.
  destruct (for_each _ _ _ _) as [o st1] eqn:Hloop. cbn [fst] in Hnone.
  subst o. apply turnos_effects in Hloop as (L & Hlog & Hwr & _).
  by exists st1, L.
Qed.

(** A turn that ends at infinity. *)
Definition turno_inf : Turn :=
  {| turn_start := 6%float; turn_end := infinity; speaker := lit "C" |}.
Definition E_turno_inf : Env :=
  world 320044 40000 (λ _, Some respuesta_hola) (Some [turno_A; turno_inf]).

Lemma non_finite_turn_aborts_witness :
  ∃ (st' : State) (L : list Event),
    procesar_archivo E_turno_inf out_dir tmp audio_a st0 = (None, st') ∧
    log st' = log st0 ++ L ∧ writes L = [].
Proof.
  apply (non_finite_turn_aborts E_turno_inf out_dir tmp audio_a wav_a 40000
           [turno_A; turno_inf] turno_inf st0).
  - reflexivity.
  - reflexivity.
  - reflexivity.
  - apply elem_of_cons; right. apply elem_of_cons; by left.
  - by vm_compute.
Defined.

(** There turn A was sent and transcribed before the run ended. *)
Example turno_inf_run :
  ∃ st',
    procesar_archivo E_turno_inf out_dir tmp audio_a st0 = (None, st') ∧
    requests (log st') = [ruta_turno tmp wav_a 0] ∧
    length (dispatched (log st')) = 1%nat ∧ writes (log st') = [].
Proof. eexists. split_and!; by vm_compute. Qed.

(** ** One input file (lines 302-394) *)

Lemma encode_last_newline (texto : str) :
  last texto = Some 10%N → last (encode_latin1_ignore texto) = Some 10%N.
Proof.
  intros Hl. apply last_Some in Hl as [t' ->].
  unfold encode_latin1_ignore, str. rewrite filter_app.
  change (filter (λ c, (c < 256)%N) [10%N]) with [10%N]. apply last_snoc.
Qed.

Lemma last_lineas (kept : list (Z * Turn * str)) :
  kept ≠ [] → last (concat ((λ k, linea k.1.2 k.2) <$> kept)) = Some 10%N.
Proof.
  induction kept as [|k kept IH]; [done|]. intros _.
  cbn [fmap list_fmap concat]. rewrite last_app.
  destruct kept as [|k' kept].
  - cbn [fmap list_fmap concat last]. unfold linea, nl.
    by rewrite !app_assoc, last_snoc.
  - by rewrite IH.
Qed.

Lemma last_linea_sin_hablantes (res : option Resultado) :
  last (linea_sin_hablantes res) = Some 10%N.
Proof.
  unfold linea_sin_hablantes. destruct (has_text res) as [tx|]; [|done].
  unfold nl. by rewrite !app_assoc, last_snoc.
Qed.

(** What the processing of one file leaves behind, whatever its outcome. *)
Record archivo_ok (E : Env) (dir_salida base ruta_audio : Path)
    (o : option unit) (L : list Event) : Prop := {
  ar_files : exports_ok L ≡ₚ unlinks L;
  ar_unlinks : Forall (en_trozos base) (unlinks L);
  ar_complete :
    servicio_completo E →
    Forall (λ r, resultado_completo r = true) (dispatched L);
  ar_writes :
    writes L = [] ∨
    o = Some tt ∧
    ∃ data, writes L = [(ruta_salida_de dir_salida ruta_audio, data)] ∧
            last data = Some 10%N ∧ Forall (λ b, (b < 256)%N) data
}.

Lemma archivo_ok_quiet (E : Env) (dir_salida base ruta_audio : Path)
    (o : option unit) (L : list Event) :
  exports_ok L ≡ₚ unlinks L → Forall (en_trozos base) (unlinks L) →
  (servicio_completo E →
   Forall (λ r, resultado_completo r = true) (dispatched L)) →
  writes L = [] →
  archivo_ok E dir_salida base ruta_audio o L.
Proof. intros Hf Hu Hc Hw. split; [done|done|done|by left]. Qed.

Lemma procesar_archivo_effects (E : Env) (dir_salida base ruta_audio : Path)
    (st : State) (o : option unit) (st' : State) :
  procesar_archivo E dir_salida base ruta_audio st = (o, st') →
  ∃ L, log st' = log st ++ L ∧ archivo_ok E dir_salida base ruta_audio o L.
Proof.
  unfold procesar_archivo. destruct st as [h lg].
  destruct (convertir_a_wav E ruta_audio _) as [ruta_wav|].
  2:{ intros [= <- <-]. exists []. rewrite app_nil_r. split; [done|].
      by apply archivo_ok_quiet;
        [|apply Forall_nil_2|intros _; apply Forall_nil_2|]. }
  destruct (from_wav E ruta_wav) as [d|].
  2:{ intros [= <- <-]. exists []. rewrite app_nil_r. split; [done|].
      by apply archivo_ok_quiet;
        [|apply Forall_nil_2|intros _; apply Forall_nil_2|]. }
  unfold bind at 1.
  destruct (diarizar_audio E ruta_wav) as [turnos|].
  - destruct (for_each _ _ _ _) as [[texto|] st1] eqn:Hloop.
    + pose proof Hloop as Hkept.
      apply turnos_effects in Hloop as (L & Hlog & Hwr & Hf & Hu & Hc).
      apply turnos_kept in Hkept as (kept & _ & _ & Htexto).
      destruct st1 as [h1 lg1]. cbn [log] in Hlog. subst lg1.
      destruct texto as [|c cs] eqn:Ht; cbn [truthy].
      * intros [= <- <-]. exists L. split; [done|]. by apply archivo_ok_quiet.
      * rewrite guardar_run. intros [= <- <-]. eexists. cbn [log].
        rewrite <- app_assoc. split; [done|]. split.
        { rewrite exports_ok_app, unlinks_app. cbn. by rewrite !app_nil_r. }
        { rewrite unlinks_app. cbn. by rewrite app_nil_r. }
        { intros HE. rewrite dispatched_app. cbn. rewrite app_nil_r. auto. }
        right. split; [done|]. eexists. rewrite writes_app, Hwr.
        split; [done|]. split; [|apply encode_latin1_ignore_bytes].
        apply encode_last_newline. cbn [app] in Htexto. rewrite Htexto.
        apply last_lineas. intros ->. by rewrite Htexto in Ht.
    + intros [= <- <-].
      apply turnos_effects in Hloop as (L & Hlog & Hwr & Hf & Hu & Hc).
      exists L. split; [done|]. by apply archivo_ok_quiet.
  - unfold transcribir_sin_hablantes, bind at 1.
    destruct (transcribir_effects E ruta_wav (join_path base (lit "chunks_full"))
                true h lg) as (res & H & L & Htr & Hwr & Hf & Hwhere & Hc).
    rewrite Htr. fold (linea_sin_hablantes res).
    assert (Hret : (match has_text res with
                    | Some text => ret (lit "SPEAKER_?: " ++ text ++ nl)
                    | None => ret error_placeholder
                    end) (mkState (h ++ H) (lg ++ L))
                   = (Some (linea_sin_hablantes res), mkState (h ++ H) (lg ++ L))).
    { unfold linea_sin_hablantes. by destruct (has_text res). }
    rewrite Hret. pose proof (last_linea_sin_hablantes res) as Hlast.
    destruct (linea_sin_hablantes res) as [|c cs] eqn:Hl; [done|].
    cbn [truthy]. rewrite guardar_run. intros [= <- <-]. eexists. cbn [log].
    rewrite <- app_assoc. split; [done|]. split.
    { rewrite exports_ok_app, unlinks_app, Hf. cbn. by rewrite !app_nil_r. }
    { rewrite unlinks_app. cbn. rewrite app_nil_r.
      eapply Forall_impl; [exact Hwhere|]. intros p Hp.
      by apply (en_trozos_dir base p "chunks_full");
        [unfold dirs_trozos; rewrite !elem_of_cons; auto|]. }
    { intros HE. rewrite dispatched_app. cbn. rewrite app_nil_r. auto. }
    right. split; [done|]. eexists. rewrite writes_app, Hwr.
    split; [done|]. split; [|apply encode_latin1_ignore_bytes].
    by apply encode_last_newline.
Qed.

(** The events of export are those of the chunks (line 165) and of the
    WAVs of the turns (line 364); the export of the converted WAV (line
    85) is part of [convertir_a_wav] and leaves no event.

    With a service whose answers carry every field, and whatever else
    happens while a file is processed: every dictionary that a request
    returned holds its three keys; when the processing ends, [unlink]
    has been called once on every chunk and every turn WAV that was
    exported, and on nothing else; these files lie in the directories
    "chunks_full", "turn_chunks" and "turn_subchunks", so that the
    converted WAV of the input, which lies in "wav", is never unlinked
    (it stays until the temporary directory goes); and at most one
    transcript is written: to the output file of the input, in bytes,
    ending with a newline. *)
Theorem archivo_leaves_one_transcript (E : Env)
    (dir_salida base ruta_audio : Path) (st : State) :
  servicio_completo E →
  let run := procesar_archivo E dir_salida base ruta_audio st in
  ∃ L : list Event,
    log run.2 = log st ++ L ∧
    Forall (λ r, resultado_completo r = true) (dispatched L) ∧
    exports_ok L ≡ₚ unlinks L ∧
    Forall (en_trozos base) (unlinks L) ∧
    (∀ ruta_wav,
       convertir_a_wav E ruta_audio (join_path base (lit "wav"))
       = Some ruta_wav →
       ruta_wav ∉ unlinks L) ∧
    (writes L = [] ∨
     run.1 = Some tt ∧
     ∃ data, writes L = [(ruta_salida_de dir_salida ruta_audio, data)] ∧
             last data = Some 10%N ∧ Forall (λ b, (b < 256)%N) data).
Proof.
  intros HE. cbn zeta.
  destruct (procesar_archivo E dir_salida base ruta_audio st) as [o st'] eqn:Hrun.
  apply procesar_archivo_effects in Hrun as (L & Hlog & [Hf Hu Hc Hw]).
  exists L. split_and!; [done|by apply Hc|done|done| |done].
  intros ruta_wav Hconv Hin. eapply Forall_forall in Hu; [|exact Hin].
  by eapply wav_not_en_trozos.
Qed.

Lemma archivo_leaves_one_transcript_witness :
  ∃ L : list Event,
    log (procesar_archivo E_turnos out_dir tmp audio_a st0).2 = log st0 ++ L ∧
    Forall (λ r, resultado_completo r = true) (dispatched L) ∧
    exports_ok L ≡ₚ unlinks L ∧
    Forall (en_trozos tmp) (unlinks L) ∧
    (∀ ruta_wav,
       convertir_a_wav E_turnos audio_a (join_path tmp (lit "wav"))
       = Some ruta_wav →
       ruta_wav ∉ unlinks L) ∧
    (writes L = [] ∨
     (procesar_archivo E_turnos out_dir tmp audio_a st0).1 = Some tt ∧
     ∃ data, writes L = [(ruta_salida_de out_dir audio_a, data)] ∧
             last data = Some 10%N ∧ Forall (λ b, (b < 256)%N) data).
Proof.
  apply (archivo_leaves_one_transcript E_turnos out_dir tmp audio_a st0).
  by intros p a [= <-].
Defined.

(** In the scenario the WAVs of the turns A and C are exported and
    unlinked, the converted WAV "tmp/wav/a.wav" is not, and the transcript
    goes to "text/a.diarized.txt". *)
Example scenario_files :
  ∃ st',
    procesar_archivo E_turnos out_dir tmp audio_a st0 = (Some tt, st') ∧
    convertir_a_wav E_turnos audio_a (join_path tmp (lit "wav")) = Some wav_a ∧
    exports_ok (log st') = [ruta_turno tmp wav_a 0; ruta_turno tmp wav_a 2] ∧
    unlinks (log st') = [ruta_turno tmp wav_a 0; ruta_turno tmp wav_a 2] ∧
    (writes (log st')).*1 = [mkPath [lit "text"] (lit "a.diarized.txt")].
Proof. eexists. split_and!; by vm_compute. Qed.

(** ** The directory (lines 284-300, 396) *)

(** The body of the loop of [procesar_directorio]. *)
Definition cuerpo_directorio (E : Env) (dir_salida : Path)
  : unit → Path → M unit :=
  λ _ ruta_audio,
    if is_file E ruta_audio
    then procesar_archivo E dir_salida (tmpdir E) ruta_audio
    else ret tt.

Lemma procesar_directorio_eq (E : Env) (dir_entrada dir_salida : Path)
    (st : State) :
  procesar_directorio E dir_entrada dir_salida st
  = if is_dir E dir_entrada
    then for_each (glob E dir_entrada) (cuerpo_directorio E dir_salida) tt st
    else (Some tt, st).
Proof. unfold procesar_directorio. by destruct (is_dir E dir_entrada). Qed.

(** What a run over some files leaves behind. *)
Record directorio_ok (E : Env) (dir_salida : Path) (archivos : list Path)
    (L : list Event) : Prop := {
  di_files : exports_ok L ≡ₚ unlinks L;
  di_unlinks : Forall (en_trozos (tmpdir E)) (unlinks L);
  di_complete :
    servicio_completo E →
    Forall (λ r, resultado_completo r = true) (dispatched L);
  di_writes :
    (writes L).*1
    `sublist_of` (ruta_salida_de dir_salida
                    <$> filter (λ p, is_file E p = true) archivos);
  di_newline : Forall (λ w, last w.2 = Some 10%N) (writes L)
}.

Lemma archivos_effects (E : Env) (dir_salida : Path) (archivos : list Path) :
  ∀ (st : State) (o : option unit) (st' : State),
    for_each archivos (cuerpo_directorio E dir_salida) tt st = (o, st') →
    ∃ L, log st' = log st ++ L ∧ directorio_ok E dir_salida archivos L.
Proof.
  induction archivos as [|f fs IH]; intros st o st' Hrun.
  { injection Hrun as <- <-. exists []. rewrite app_nil_r.
    split; [done|].
    split; cbn; [done|constructor|intros _; constructor|done|constructor]. }
  cbn [for_each] in Hrun. unfold bind in Hrun.
  unfold cuerpo_directorio at 1 in Hrun.
  pose proof (filter_cons (λ p, is_file E p = true) f fs) as Hfilt.
  destruct (is_file E f) eqn:Hf.
  - destruct (procesar_archivo E dir_salida (tmpdir E) f st)
      as [o1 st1] eqn:Hone.
    apply procesar_archivo_effects in Hone
      as (L1 & Hlog1 & [Hfiles1 Hu1 Hc1 Hwr1]).
    assert (Hw1 : (writes L1).*1 `sublist_of` [ruta_salida_de dir_salida f]
                  ∧ Forall (λ w, last w.2 = Some 10%N) (writes L1)).
    { destruct Hwr1 as [-> | (_ & data & -> & Hlast & _)].
      - split; [apply sublist_nil_l|constructor].
      - split; [done|]. by repeat constructor. }
    destruct Hw1 as [Hsub1 Hnl1]. case_decide; [|congruence].
    destruct o1 as [[]|].
    + apply IH in Hrun as (L2 & Hlog2 & [Hfiles2 Hu2 Hc2 Hsub2 Hnl2]).
      exists (L1 ++ L2). split; [by rewrite Hlog2, Hlog1, app_assoc|]. split.
      * by rewrite exports_ok_app, unlinks_app, Hfiles1, Hfiles2.
      * rewrite unlinks_app. by apply Forall_app.
      * intros HE. rewrite dispatched_app. apply Forall_app. auto.
      * rewrite Hfilt, writes_app, fmap_app, fmap_cons.
        by apply (sublist_app _ [_]).
      * rewrite writes_app. by apply Forall_app.
    + injection Hrun as <- <-. exists L1. split; [done|].
      split; [done|done|done| |done].
      rewrite Hfilt, fmap_cons. etrans; [exact Hsub1|].
      apply sublist_skip, sublist_nil_l.
  - case_decide; [congruence|]. unfold ret in Hrun.
    apply IH in Hrun as (L & Hlog & [Hfiles Hu Hc Hsub Hnl]).
    exists L. split; [done|]. split; [done|done|done| |done]. by rewrite Hfilt.
Qed.

(** With a service whose answers carry every field, a run over a
    directory writes one transcript at most for each regular file of the
    listing, in the order of the listing, each ending with a newline;
    every dictionary that a request returned holds its three keys; the
    run calls [unlink] once on every chunk and every turn WAV that it
    exported, and on nothing else: the converted WAVs of the inputs are
    never unlinked.  An entry that is not a regular file gets nothing,
    and when the input is not a directory nothing happens. *)
Theorem directorio_one_transcript_per_file (E : Env)
    (dir_entrada dir_salida : Path) (st : State) :
  servicio_completo E →
  let run := procesar_directorio E dir_entrada dir_salida st in
  ∃ L : list Event,
    log run.2 = log st ++ L ∧
    (is_dir E dir_entrada = false → run = (Some tt, st)) ∧
    Forall (λ r, resultado_completo r = true) (dispatched L) ∧
    exports_ok L ≡ₚ unlinks L ∧
    Forall (en_trozos (tmpdir E)) (unlinks L) ∧
    (∀ ruta_audio ruta_wav,
       convertir_a_wav E ruta_audio (join_path (tmpdir E) (lit "wav"))
       = Some ruta_wav →
       ruta_wav ∉ unlinks L) ∧
    (writes L).*1
    `sublist_of` (ruta_salida_de dir_salida
                    <$> filter (λ p, is_file E p = true) (glob E dir_entrada)) ∧
    Forall (λ w, last w.2 = Some 10%N) (writes L).
Proof.
  intros HE. cbn zeta. rewrite procesar_directorio_eq.
  assert (Hwav : ∀ L, Forall (en_trozos (tmpdir E)) (unlinks L) →
            ∀ ruta_audio ruta_wav,
              convertir_a_wav E ruta_audio (join_path (tmpdir E) (lit "wav"))
              = Some ruta_wav →
              ruta_wav ∉ unlinks L).
  { intros L Hu ruta_audio ruta_wav Hconv Hin.
    eapply Forall_forall in Hu; [|exact Hin]. by eapply wav_not_en_trozos. }
  destruct (is_dir E dir_entrada).
  - destruct (for_each _ _ _ _) as [o st'] eqn:Hrun.
    apply archivos_effects in Hrun as (L & Hlog & [Hf Hu Hc Hs Hn]).
    exists L. split_and!; try done; [by apply Hc|by apply Hwav].
  - exists []. rewrite app_nil_r. split_and!; try done.
    + apply Hwav, Forall_nil_2.
    + apply sublist_nil_l.
Qed.

(** ** A file that cannot be loaded (lines 299-316) *)

(** [E] with another listing of the input directory. *)
Definition con_listado (E : Env) (archivos : list Path) : Env :=
  {| decode_ok := decode_ok E;
     st_size := st_size E;
     from_wav := from_wav E;
     slice_ok := slice_ok E;
     export_ok := export_ok E;
     api_transcribe := api_transcribe E;
     di_pipeline := di_pipeline E;
     is_dir := is_dir E;
     glob := λ _, archivos;
     is_file := is_file E;
     tmpdir := tmpdir E |}.

(** The entry passes [is_file], its conversion succeeds and the WAV it
    gave loads: the tests of lines 299, 308 and 313. *)
Definition cargable (E : Env) (ruta_audio : Path) : bool :=
  is_file E ruta_audio &&
  match convertir_a_wav E ruta_audio (join_path (tmpdir E) (lit "wav")) with
  | Some ruta_wav =>
      match from_wav E ruta_wav with Some _ => true | None => false end
  | None => false
  end.

Lemma cuerpo_no_cargable (E : Env) (dir_salida f : Path) (st : State) :
  cargable E f = false →
  cuerpo_directorio E dir_salida tt f st = (Some tt, st).
Proof.
  unfold cargable, cuerpo_directorio, procesar_archivo. intros H.
  destruct (is_file E f); [|done]. cbn [andb] in H.
  destruct (convertir_a_wav _ _ _) as [wav|]; [|done].
  by destruct (from_wav E wav).
Qed.

(** An entry of the listing that is not a regular file, that cannot be
    converted, or whose WAV cannot be loaded, is passed over: the run over
    the directory is the run over the directory without that entry, in
    result, in final state and in every event. *)
Theorem unloadable_file_is_skipped (E : Env) (dir_entrada dir_salida : Path)
    (antes despues : list Path) (f : Path) (st : State) :
  glob E dir_entrada = antes ++ f :: despues →
  cargable E f = false →
  procesar_directorio E dir_entrada dir_salida st
  = procesar_directorio (con_listado E (antes ++ despues))
      dir_entrada dir_salida st.
Proof.
  intros Hglob Hf. rewrite !procesar_directorio_eq.
  cbn [con_listado is_dir glob]. destruct (is_dir E dir_entrada); [|done].
  rewrite Hglob.
  change (cuerpo_directorio (con_listado E (antes ++ despues)) dir_salida)
    with (cuerpo_directorio E dir_salida).
  rewrite !for_each_app. unfold bind.
  destruct (for_each antes _ _ _) as [[[]|] st1]; [|done].
  cbn [for_each]. unfold bind. by rewrite cuerpo_no_cargable.
Qed.

Definition in_dir : Path := mkPath [] (lit "audio").
Definition audio_roto : Path := mkPath [lit "audio"] (lit "roto.mp3").

(** A directory of two entries, the first of which cannot be decoded. *)
Definition E_roto : Env :=
  {| decode_ok := λ p, negb (bool_decide (p = audio_roto));
     st_size := λ _, 320044;
     from_wav := λ _, Some 10000;
     slice_ok := λ _ _ _, true;
     export_ok := λ _ _, true;
     api_transcribe := λ _, Some respuesta_hola;
     di_pipeline := None;
     is_dir := λ _, true;
     glob := λ _, [audio_roto; audio_a];
     is_file := λ _, true;
     tmpdir := tmp |}.

Lemma unloadable_file_is_skipped_witness :
  procesar_directorio E_roto in_dir out_dir st0
  = procesar_directorio (con_listado E_roto [audio_a]) in_dir out_dir st0.
Proof.
  apply (unloadable_file_is_skipped E_roto in_dir out_dir [] [audio_a]
           audio_roto st0); reflexivity.
Defined.

Lemma directorio_one_transcript_per_file_witness :
  ∃ L : list Event,
    log (procesar_directorio E_roto in_dir out_dir st0).2 = log st0 ++ L ∧
    (is_dir E_roto in_dir = false →
     procesar_directorio E_roto in_dir out_dir st0 = (Some tt, st0)) ∧
    Forall (λ r, resultado_completo r = true) (dispatched L) ∧
    exports_ok L ≡ₚ unlinks L ∧
    Forall (en_trozos (tmpdir E_roto)) (unlinks L) ∧
    (∀ ruta_audio ruta_wav,
       convertir_a_wav E_roto ruta_audio (join_path (tmpdir E_roto) (lit "wav"))
       = Some ruta_wav →
       ruta_wav ∉ unlinks L) ∧
    (writes L).*1
    `sublist_of` (ruta_salida_de out_dir
                    <$> filter (λ p, is_file E_roto p = true)
                          (glob E_roto in_dir)) ∧
    Forall (λ w, last w.2 = Some 10%N) (writes L).
Proof.
  apply (directorio_one_transcript_per_file E_roto in_dir out_dir st0).
  by intros p a [= <-].
Defined.

(** The run over that directory writes the transcript of the second entry
    and nothing else; its one chunk is exported and unlinked, its
    converted WAV is not. *)
Example roto_run :
  let run := procesar_directorio E_roto in_dir out_dir st0 in
  run.1 = Some tt ∧
  (writes (log run.2)).*1 = [ruta_salida_de out_dir audio_a] ∧
  exports_ok (log run.2)
  = [chunk_filename wav_a (join_path tmp (lit "chunks_full")) 0] ∧
  unlinks (log run.2) = exports_ok (log run.2).
Proof. by vm_compute. Qed.
